(** * SelfObjectModel: a prototype-based object model

    A shallow embedding of [SelfObjectModel.py].  Python objects, dicts and
    lists are mutable and shared, so the embedding keeps an explicit store:
    every [SelfObjectModel] instance, every dict and every list lives in an
    arena and is named by its index, which plays the role of [id(...)].
    Methods are state-passing functions over that store; the recursion of
    [evaluate] through [send_message] is bounded by a fuel argument, a
    running-out of which stands for Python's stack exhaustion (or a
    [for] loop that a host function keeps feeding).

    Typing follows the data model of the design: slots hold instances,
    message names are strings, and a payload is an integer, a boolean or a
    string.  A host callable is a function on the store, registered under a
    number; [primitive_function] holds that number.  Strings are taken as
    ASCII text where [repr] is concerned, and [str] of an integer is
    CPython's, which refuses integers of more than 4300 digits. *)

From Stdlib Require Import Ascii.
From stdpp Require Import gmap strings list pretty relations.

Open Scope string_scope.
Open Scope nat_scope.
Open Scope list_scope.

Module SelfObjectModel.

(** ** Data model *)

(** Identity of an instance ([id(obj)]), identity of a container, and the
    name under which a host callable is registered. *)
Abbreviation addr := nat (only parsing).
Abbreviation loc := nat (only parsing).
Abbreviation fid := nat (only parsing).

(** Opaque host payloads stored in [primitive_value]; Python's [None] is the
    absence of a payload. *)
Inductive prim_val :=
  | PInt (z : Z)
  | PBool (b : bool)
  | PStr (s : string).

(** What a method can hand back: [None], a bare payload, or an instance. *)
Inductive value :=
  | VNone
  | VPrim (p : prim_val)
  | VObj (a : addr).

(** The five attributes set by [__init__].  The three containers are held
    by reference. *)
Record object := Object {
  slots : loc;
  parent_slots : loc;
  messages : loc;
  primitive_value : option prim_val;
  primitive_function : option fid
}.

(** A Python dict with string keys: insertion-ordered, one entry per key. *)
Abbreviation dict := (list (string * addr)) (only parsing).

Record heap := Heap {
  objs : list object;
  dicts : list (list (string * addr));
  plists : list (list addr);
  mlists : list (list string)
}.

Definition set_dicts (h : heap) (x : list (list (string * addr))) : heap :=
  Heap (objs h) x (plists h) (mlists h).
Definition set_plists (h : heap) (x : list (list addr)) : heap :=
  Heap (objs h) (dicts h) x (mlists h).
Definition set_mlists (h : heap) (x : list (list string)) : heap :=
  Heap (objs h) (dicts h) (plists h) x.

Inductive exn :=
  | ValueError (text : string)
  | KeyError (key : string).

(** Result of running a method on a store.  [Stuck] is a read through a
    reference that names nothing, which no Python program can produce. *)
Inductive outcome (A : Type) :=
  | Ok (a : A) (h : heap)
  | Raise (e : exn) (h : heap)
  | Stuck
  | OutOfFuel.
Arguments Ok {A} a h.
Arguments Raise {A} e h.
Arguments Stuck {A}.
Arguments OutOfFuel {A}.

Definition M (A : Type) : Type := heap → outcome A.

Definition ret {A} (a : A) : M A := λ h, Ok a h.

Definition bind {A B} (c : M A) (k : A → M B) : M B := λ h,
  match c h with
  | Ok a h' => k a h'
  | Raise e h' => Raise e h'
  | Stuck => Stuck
  | OutOfFuel => OutOfFuel
  end.

Notation "'let!' x := c 'in' k" := (bind c (λ x, k))
  (at level 10, x name, c at level 100, k at level 200).

(** ** Dict operations *)

Fixpoint dict_get (d : dict) (k : string) : option addr :=
  match d with
  | [] => None
  | (k', v) :: d' => if decide (k' = k) then Some v else dict_get d' k
  end.

(** [d[k] = v]: an existing key keeps its position, a new key goes last. *)
Fixpoint dict_set (d : dict) (k : string) (v : addr) : dict :=
  match d with
  | [] => [(k, v)]
  | (k', v') :: d' =>
      if decide (k' = k) then (k', v) :: d' else (k', v') :: dict_set d' k v
  end.

Definition dict_keys (d : dict) : list string := d.*1.

(** ** Allocation and the [or] idiom of the constructor *)

(** A new container is appended to its arena; its index is its identity. *)
Definition alloc {X} (st : list (list X)) (c : list X) : loc * list (list X) :=
  (length st, st ++ [c]).

(** [arg or <empty>]: [None] and an empty container are falsy and are
    replaced by a newly created empty container; anything else is kept as
    it is, by reference. *)
Definition or_empty {X} (st : list (list X)) (arg : option loc)
    : option (loc * list (list X)) :=
  match arg with
  | None => Some (alloc st [])
  | Some l =>
      match st !! l with
      | None => None
      | Some [] => Some (alloc st [])
      | Some (_ :: _) => Some (l, st)
      end
  end.

(** [c.copy()] on a dict or a list. *)
Definition copy_container {X} (st : list (list X)) (l : loc)
    : option (loc * list (list X)) :=
  c ← st !! l; Some (alloc st c).

Definition __init__ (slots parent_slots messages : option loc)
    (primitive_value : option prim_val) (primitive_function : option fid)
    : M addr := λ h,
  match or_empty (dicts h) slots with
  | None => Stuck
  | Some (s, ds) =>
    match or_empty (plists h) parent_slots with
    | None => Stuck
    | Some (p, ps) =>
      match or_empty (mlists h) messages with
      | None => Stuck
      | Some (m, ms) =>
          Ok (length (objs h))
             (Heap (objs h ++ [Object s p m primitive_value primitive_function])
                   ds ps ms)
      end
    end
  end.

Definition copy (self : addr) : M addr := λ h,
  match objs h !! self with
  | None => Stuck
  | Some o =>
    match copy_container (dicts h) (slots o) with
    | None => Stuck
    | Some (s, ds) =>
      match copy_container (plists h) (parent_slots o) with
      | None => Stuck
      | Some (p, ps) =>
        match copy_container (mlists h) (messages o) with
        | None => Stuck
        | Some (m, ms) =>
            __init__ (Some s) (Some p) (Some m)
                     (primitive_value o) (primitive_function o)
                     (Heap (objs h) ds ps ms)
        end
      end
    end
  end.

(** ** Mutators *)

Definition assign_slot (self : addr) (name : string) (obj : addr) : M unit := λ h,
  match objs h !! self with
  | None => Stuck
  | Some o =>
    match dicts h !! slots o with
    | None => Stuck
    | Some d => Ok () (set_dicts h (<[slots o := dict_set d name obj]> (dicts h)))
    end
  end.

Definition SlotNotFound (name : string) : exn :=
  ValueError ("Slot '" +:+ name +:+ "' does not exist.").

Definition make_parent (self : addr) (name : string) : M unit := λ h,
  match objs h !! self with
  | None => Stuck
  | Some o =>
    match dicts h !! slots o with
    | None => Stuck
    | Some d =>
      match dict_get d name with
      | Some v =>
        match plists h !! parent_slots o with
        | None => Stuck
        | Some ps => Ok () (set_plists h (<[parent_slots o := ps ++ [v]]> (plists h)))
        end
      | None => Raise (SlotNotFound name) h
      end
    end
  end.

Definition assign_parent_slot (self : addr) (name : string) (obj : addr) : M unit :=
  let! _ := assign_slot self name obj in make_parent self name.

(** ** Lookup *)

Inductive lookup_result :=
  | Found (target : addr)
  | NotFound
  | Dangling
  | Exhausted.

(** The [while queue:] loop of [_bfs_lookup], one iteration per unit of
    fuel. *)
Fixpoint bfs_loop (fuel : nat) (h : heap) (message : string)
    (queue : list addr) (visited : gset addr) : lookup_result :=
  match fuel with
  | O => Exhausted
  | S fuel =>
    match queue with
    | [] => NotFound
    | current :: queue =>
      if decide (current ∈ visited) then bfs_loop fuel h message queue visited
      else
        let visited := {[current]} ∪ visited in
        match objs h !! current with
        | None => Dangling
        | Some o =>
          match dicts h !! slots o with
          | None => Dangling
          | Some d =>
            match dict_get d message with
            | Some target => Found target
            | None =>
              match plists h !! parent_slots o with
              | None => Dangling
              | Some ps =>
                  bfs_loop fuel h message
                           (queue ++ filter (λ p, p ∉ visited) ps) visited
              end
            end
          end
        end
    end
  end.

(** The parents an instance declares, as far as the store knows them. *)
Definition parents_of (h : heap) (a : addr) : list addr :=
  match objs h !! a with
  | None => []
  | Some o => default [] (plists h !! parent_slots o)
  end.

(** Number of enqueue operations still possible: the parent entries of the
    instances not yet visited. *)
Definition pending (h : heap) (visited : gset addr) (a : addr) : nat :=
  if decide (a ∈ visited) then 0 else length (parents_of h a).

Definition weight (h : heap) (visited : gset addr) : nat :=
  sum_list (pending h visited <$> seq 0 (length (objs h))).

Definition bfs_fuel (h : heap) : nat := S (S (weight h ∅)).

Definition _bfs_lookup (h : heap) (self : addr) (message : string) : lookup_result :=
  bfs_loop (bfs_fuel h) h message [self] ∅.

(** ** Rendering *)

(** CPython's default limit on the conversion of an [int] to text
    ([sys.int_info.default_max_str_digits]): [str] of an integer with more
    decimal digits than this raises [ValueError]. *)
Definition int_max_str_digits : Z := 4300.

Definition IntTooLong : exn :=
  ValueError ("Exceeds the limit (4300 digits) for integer string conversion; "
              +:+ "use sys.set_int_max_str_digits() to increase the limit").

(** [str(p)] of a payload: on the right the text it returns, on the left
    the error it raises.  An integer has more than [int_max_str_digits]
    digits when its absolute value reaches [10 ^ int_max_str_digits]. *)
Definition py_str (p : prim_val) : exn + string :=
  match p with
  | PInt z =>
      if decide (Z.abs z < 10 ^ int_max_str_digits)%Z then inr (pretty z)
      else inl IntTooLong
  | PBool true => inr "True"
  | PBool false => inr "False"
  | PStr s => inr s
  end.

Definition squote : ascii := "039"%char.
Definition dquote : ascii := "034"%char.
Definition backslash : ascii := "092"%char.

Fixpoint contains (c : ascii) (s : string) : bool :=
  match s with
  | EmptyString => false
  | String c' s' => if decide (c' = c) then true else contains c s'
  end.

Definition hex_digit (n : nat) : ascii :=
  match n with
  | 0 => "0" | 1 => "1" | 2 => "2" | 3 => "3" | 4 => "4" | 5 => "5"
  | 6 => "6" | 7 => "7" | 8 => "8" | 9 => "9" | 10 => "a" | 11 => "b"
  | 12 => "c" | 13 => "d" | 14 => "e" | _ => "f"
  end%char.

(** One character of [repr(str)], for ASCII text. *)
Definition repr_char (quote c : ascii) : string :=
  let n := nat_of_ascii c in
  if decide (c = quote) then String backslash (String c EmptyString)
  else if decide (c = backslash) then String backslash (String backslash EmptyString)
  else if decide (n = 9) then String backslash "t"
  else if decide (n = 10) then String backslash "n"
  else if decide (n = 13) then String backslash "r"
  else if decide (n < 32 ∨ n = 127) then
    String backslash (String "x" (String (hex_digit (n / 16))
                                 (String (hex_digit (n mod 16)) EmptyString)))
  else String c EmptyString.

Fixpoint repr_chars (quote : ascii) (s : string) : string :=
  match s with
  | EmptyString => EmptyString
  | String c s' => repr_char quote c +:+ repr_chars quote s'
  end.

(** [repr] of a [str]: single quotes unless the text has a single quote and
    no double quote. *)
Definition py_repr (s : string) : string :=
  let quote := if contains squote s && negb (contains dquote s) then dquote else squote in
  String quote (repr_chars quote s +:+ String quote EmptyString).

Fixpoint join (sep : string) (l : list string) : string :=
  match l with
  | [] => ""
  | [x] => x
  | x :: l' => x +:+ sep +:+ join sep l'
  end.

(** [repr] of a list of [str]. *)
Definition py_repr_list (l : list string) : string :=
  "[" +:+ join ", " (py_repr <$> l) +:+ "]".

(** [__str__] reads the store and changes nothing: its result is the
    string it returns (on the right) or the error it raises (on the left);
    [None] is a read through a reference that names nothing. *)
Definition __str__ (h : heap) (self : addr) : option (exn + string) :=
  o ← objs h !! self;
  match primitive_value o with
  | Some p => Some (py_str p)
  | None =>
    match primitive_function o with
    | Some _ => Some (inr "<SelfObjectModel: primitive_function>")
    | None =>
      ms ← mlists h !! messages o;
      d ← dicts h !! slots o;
      match ms with
      | _ :: _ =>
          Some (inr ("<SelfObjectModel: messages=" +:+ py_repr_list ms
                     +:+ ", slots=" +:+ py_repr_list (dict_keys d) +:+ ">"))
      | [] =>
          Some (inr ("<SelfObjectModel: slots=" +:+ py_repr_list (dict_keys d)
                     +:+ ">"))
      end
    end
  end.

Definition print (h : heap) (self : addr) : option (exn + string) :=
  __str__ h self.

(** ** Evaluation and message sends *)

Definition MessageNotFound (message : string) : exn :=
  ValueError ("Message '" +:+ message +:+ "' not found in slots or parent slots.").

(** [send_message] with the recursive call to [evaluate] left open. *)
Definition send_message_with (ev : addr → M value) (self : addr) (message : string)
    : M value := λ h,
  match _bfs_lookup h self message with
  | Found target_obj => ev target_obj h
  | NotFound => Raise (MessageNotFound message) h
  | Dangling => Stuck
  | Exhausted => OutOfFuel
  end.

(** [for message in l: result = send(message)], as Python runs it: the list
    is read again at every step, at the next index, so entries appended
    while the loop runs are sent too. *)
Fixpoint for_messages (send : string → M value) (n : nat) (l : loc) (i : nat)
    (result : value) (h : heap) : outcome value :=
  match n with
  | O => OutOfFuel
  | S n =>
    match mlists h !! l with
    | None => Stuck
    | Some ms =>
      match ms !! i with
      | None => Ok result h
      | Some message =>
        match send message h with
        | Ok r h' => for_messages send n l (S i) r h'
        | Raise e h' => Raise e h'
        | Stuck => Stuck
        | OutOfFuel => OutOfFuel
        end
      end
    end
  end.

Section Engine.

(** The host callables stored in [primitive_function], by registered name:
    each takes an instance and the store, and returns or raises. *)
Variable prim : fid → addr → M value.

Fixpoint evaluate (fuel : nat) (self : addr) (h : heap) {struct fuel} : outcome value :=
  match fuel with
  | O => OutOfFuel
  | S fuel =>
    match objs h !! self with
    | None => Stuck
    | Some o =>
      match mlists h !! messages o with
      | None => Stuck
      | Some (_ :: _) =>
          (let! obj_copy := copy self in
           for_messages (send_message_with (evaluate fuel) obj_copy)
                        fuel (messages o) 0 VNone) h
      | Some [] =>
        match primitive_function o with
        | Some f => (let! c := copy self in prim f c) h
        | None =>
          match primitive_value o with
          | Some _ => (let! c := copy self in ret (VObj c)) h
          | None => Ok (VObj self) h
          end
        end
      end
    end
  end.

Definition send_message (fuel : nat) (self : addr) (message : string) : M value :=
  send_message_with (evaluate fuel) self message.

Definition send_message_with_parameters (fuel : nat) (self : addr)
    (message : string) (parameter : addr) : M value := λ h,
  match _bfs_lookup h self message with
  | Found target_obj =>
      (let! target_copy := copy target_obj in
       let! _ := assign_slot target_copy "parameter" parameter in
       evaluate fuel target_copy) h
  | NotFound => Raise (MessageNotFound message) h
  | Dangling => Stuck
  | Exhausted => OutOfFuel
  end.

End Engine.

(** The attributes of an instance, read through the store:
    [self.slots], [self.slots.get(name)], [self.parent_slots],
    [self.messages]. *)
Definition slots_of (h : heap) (self : addr) : option dict :=
  o ← objs h !! self; dicts h !! slots o.
Definition slot_of (h : heap) (self : addr) (name : string) : option addr :=
  d ← slots_of h self; dict_get d name.
Definition parent_slots_of (h : heap) (self : addr) : option (list addr) :=
  o ← objs h !! self; plists h !! parent_slots o.
Definition messages_of (h : heap) (self : addr) : option (list string) :=
  o ← objs h !! self; mlists h !! messages o.

(** ** Breadth-first order, depth by depth

    The reading of "breadth-first" that the lookup is measured against:
    the instances of one depth are examined in their order, the first
    unvisited one that holds the name decides, and only when a whole depth
    has been examined does the search move on to the parents those
    instances declared, again in order. *)

Inductive scan_result :=
  | ScanFound (target : addr)
  | ScanDangling
  | ScanNext (visited : gset addr) (next : list addr).

Fixpoint scan_level (h : heap) (message : string) (level : list addr)
    (visited : gset addr) (next : list addr) : scan_result :=
  match level with
  | [] => ScanNext visited next
  | a :: level =>
    if decide (a ∈ visited) then scan_level h message level visited next
    else
      match objs h !! a with
      | None => ScanDangling
      | Some o =>
        match dicts h !! slots o with
        | None => ScanDangling
        | Some d =>
          match dict_get d message with
          | Some target => ScanFound target
          | None =>
            match plists h !! parent_slots o with
            | None => ScanDangling
            | Some ps => scan_level h message level ({[a]} ∪ visited) (next ++ ps)
            end
          end
        end
      end
  end.

Fixpoint level_search (depth : nat) (h : heap) (message : string)
    (level : list addr) (visited : gset addr) : lookup_result :=
  match depth with
  | O => Exhausted
  | S depth =>
    match level with
    | [] => NotFound
    | _ :: _ =>
      match scan_level h message level visited [] with
      | ScanFound target => Found target
      | ScanDangling => Dangling
      | ScanNext visited' next => level_search depth h message next visited'
      end
    end
  end.

(** What the lookup reads names something: every instance has its slots
    dict and its parent list, and every declared parent is an instance.
    Python references always do. *)
Definition closed (h : heap) : bool :=
  forallb (λ o,
    bool_decide (is_Some (dicts h !! slots o)) &&
    match plists h !! parent_slots o with
    | Some ps => forallb (λ p, bool_decide (p < length (objs h))) ps
    | None => false
    end) (objs h).

(** The entries of one depth that are new, in their order. *)
Fixpoint fresh_nodes (level : list addr) (visited : gset addr) : list addr :=
  match level with
  | [] => []
  | a :: level =>
    if decide (a ∈ visited) then fresh_nodes level visited
    else a :: fresh_nodes level ({[a]} ∪ visited)
  end.

(** Breadth-first order: the new instances of one depth, then those among
    the parents they declare, and so on. *)
Fixpoint bfs_order (depth : nat) (h : heap) (level : list addr) (visited : gset addr)
    : list addr :=
  match depth with
  | O => []
  | S depth =>
    let nodes := fresh_nodes level visited in
    nodes ++ bfs_order depth h (nodes ≫= parents_of h) (list_to_set nodes ∪ visited)
  end.

(** The slot value of the first instance in a sequence that holds the name. *)
Definition first_holder (h : heap) (message : string) (order : list addr) : lookup_result :=
  match head (omap (λ a, slot_of h a message) order) with
  | Some target => Found target
  | None => NotFound
  end.

(** A queue that lacks some already visited entries of another one. *)
Inductive skips (visited : gset addr) : list addr → list addr → Prop :=
  | skips_nil : skips visited [] []
  | skips_keep a q q' : skips visited q q' → skips visited (a :: q) (a :: q')
  | skips_drop a q q' : a ∈ visited → skips visited q q' → skips visited q (a :: q').

(** ** Host side

    What a caller does outside the engine: container literals, and the
    callable of the parameter-passing demonstration. *)

Definition empty_heap : heap := Heap [] [] [] [].

Definition new_dict (d : dict) : M loc := λ h,
  let '(l, ds) := alloc (dicts h) d in Ok l (set_dicts h ds).
Definition new_plist (ps : list addr) : M loc := λ h,
  let '(l, pss) := alloc (plists h) ps in Ok l (set_plists h pss).
Definition new_mlist (ms : list string) : M loc := λ h,
  let '(l, mss) := alloc (mlists h) ms in Ok l (set_mlists h mss).

(** Host statements on a container the host holds a reference to:
    [d[k] = v] and [l.append(x)]. *)
Definition dict_setitem (l : loc) (k : string) (v : addr) : M unit := λ h,
  match dicts h !! l with
  | None => Stuck
  | Some d => Ok () (set_dicts h (<[l := dict_set d k v]> (dicts h)))
  end.
Definition plist_append (l : loc) (a : addr) : M unit := λ h,
  match plists h !! l with
  | None => Stuck
  | Some ps => Ok () (set_plists h (<[l := ps ++ [a]]> (plists h)))
  end.
Definition mlist_append (l : loc) (m : string) : M unit := λ h,
  match mlists h !! l with
  | None => Stuck
  | Some ms => Ok () (set_mlists h (<[l := ms ++ [m]]> (mlists h)))
  end.

(** [def echo(call_obj): return call_obj.slots["parameter"]] *)
Definition echo (call_obj : addr) : M value := λ h,
  match objs h !! call_obj with
  | None => Stuck
  | Some o =>
    match dicts h !! slots o with
    | None => Stuck
    | Some d =>
      match dict_get d "parameter" with
      | Some v => Ok (VObj v) h
      | None => Raise (KeyError "parameter") h
      end
    end
  end.

(** A host that registers [echo] under every name. *)
Definition echo_host (f : fid) : addr → M value := echo.



(** ** Auxiliary notions for the statements *)

(** [c.copy()] followed by the constructor's [or]: what [copy] does to each
    of the three containers. *)
Definition dup {X} (st : list (list X)) (l : loc) : option (loc * list (list X)) :=
  '(l0, st0) ← copy_container st l; or_empty st0 (Some l0).

(** The second store has every instance and container of the first one,
    unchanged, and possibly more. *)
Definition extends (h h' : heap) : Prop :=
  objs h `prefix_of` objs h' ∧ dicts h `prefix_of` dicts h' ∧
  plists h `prefix_of` plists h' ∧ mlists h `prefix_of` mlists h'.

(** A constructor argument is [None] or a reference to a container. *)
Definition valid_arg {X} (st : list (list X)) (arg : option loc) : Prop :=
  ∀ l, arg = Some l → is_Some (st !! l).

(** How the constructor's [or] stores an argument: a non-empty container is
    kept, by reference, and nothing is created; [None] or an empty container
    gives way to a newly created empty one. *)
Definition kept_or_fresh {X} (st st' : list (list X)) (arg : option loc) (l' : loc)
    : Prop :=
  match arg with
  | Some l =>
      match st !! l with
      | Some (_ :: _) => l' = l ∧ st' = st
      | _ => l' = length st ∧ st' = st ++ [[]]
      end
  | None => l' = length st ∧ st' = st ++ [[]]
  end.


(** Host callables that leave the message lists that exist alone. *)
Definition keeps_messages (prim : fid → addr → M value) : Prop :=
  ∀ f a h r h', prim f a h = Ok r h' → mlists h `prefix_of` mlists h'.


(** [bool(p)] *)
Definition truthy (p : prim_val) : bool :=
  match p with
  | PInt z => negb (Z.eqb z 0)
  | PBool b => b
  | PStr s => negb (String.eqb s "")
  end.

(** What a caller observes of an outcome: the value handed back, the error
    raised, and the text that [print(result)] shows when the result is an
    instance and [str] of it returns. *)
Definition returned {A} (r : outcome A) : option A :=
  match r with Ok a _ => Some a | _ => None end.
Definition raised {A} (r : outcome A) : option exn :=
  match r with Raise e _ => Some e | _ => None end.
Definition rendered (r : outcome value) : option string :=
  match r with
  | Ok (VObj a) h =>
      match __str__ h a with Some (inr text) => Some text | _ => None end
  | _ => None
  end.

(** ** Scenarios

    Stores of the situations the properties below are exercised on.  In each
    of them instance [i] owns the containers number [i]. *)

(** [R] (0) declares the parents [P1] (1) and [P2] (2); [P1] has the parent
    [G] (3); [P2] and [G] both hold ["k"]. *)
Definition tie_break_heap : heap :=
  Heap [Object 0 0 0 None None; Object 1 1 1 None None;
        Object 2 2 2 None None; Object 3 3 3 None None;
        Object 4 4 4 (Some (PStr "from P2")) None;
        Object 5 5 5 (Some (PStr "from G")) None]
       [[]; []; [("k", 4)]; [("k", 5)]; []; []]
       [[1; 2]; [3]; []; []; []; []]
       [[]; []; []; []; []; []].

(** [R] (0) holds ["k"] itself and declares the parent [P] (1), which holds
    ["k"] too. *)
Definition shadow_heap : heap :=
  Heap [Object 0 0 0 None None; Object 1 1 1 None None;
        Object 2 2 2 (Some (PStr "own")) None;
        Object 3 3 3 (Some (PStr "inherited")) None]
       [[("k", 2)]; [("k", 3)]; []; []]
       [[1]; []; []; []]
       [[]; []; []; []].

(** [A] (0) and [B] (1) are each other's parent. *)
Definition mutual_heap : heap :=
  Heap [Object 0 0 0 None None; Object 1 1 1 None None]
       [[]; []]
       [[1]; [0]]
       [[]; []].

(** Instance 0 has both a message and a payload; its slot ["x"] holds
    instance 1, whose payload is different. *)
Definition precedence_heap : heap :=
  Heap [Object 0 0 0 (Some (PInt 5)) None; Object 1 1 1 (Some (PInt 7)) None]
       [[("x", 1)]; []]
       [[]; []]
       [["x"]; []].




(** The slot ["k"] of [R] (0) holds [O] (1), which is told to send ["k"] and
    has no such slot. *)
Definition nested_failure_heap : heap :=
  Heap [Object 0 0 0 None None; Object 1 1 1 None None]
       [[("k", 1)]; []]
       [[]; []]
       [[]; ["k"]].

(** The parameter-passing demonstration: the slot ["echo"] of instance 0
    holds instance 1, whose behaviour is [echo]; instance 2 wraps
    ["Hello"]. *)
Definition echo_heap : heap :=
  Heap [Object 0 0 0 None None; Object 1 1 1 None (Some 0);
        Object 2 2 2 (Some (PStr "Hello")) None]
       [[("echo", 1)]; []; []]
       [[]; []; []]
       [[]; []; []].

(** The same with an argument that has something to evaluate: instance 2 is
    told to send ["x"], and its slot ["x"] holds instance 3. *)
Definition echo_script_heap : heap :=
  Heap [Object 0 0 0 None None; Object 1 1 1 None (Some 0);
        Object 2 2 2 None None; Object 3 3 3 (Some (PInt 7)) None]
       [[("echo", 1)]; []; [("x", 3)]; []]
       [[]; []; []; []]
       [[]; []; ["x"]; []].

(** Payloads that are falsy and not [None]: [0], [False] and the empty
    string. *)
Definition falsy_heap : heap :=
  Heap [Object 0 0 0 (Some (PInt 0)) None; Object 1 1 1 (Some (PBool false)) None;
        Object 2 2 2 (Some (PStr "")) None]
       [[("a", 1)]; []; []]
       [[]; []; []]
       [[]; []; []].

(** A host that holds a non-empty dict and lists (number 1) and empty ones
    (number 2), before it calls the constructor. *)
Definition passed_heap : heap :=
  Heap [Object 0 0 0 (Some (PInt 1)) None]
       [[]; [("a", 0)]; []]
       [[]; [0]; []]
       [[]; ["m"]; []].


(** ** The demonstrations at the end of the source file

    Each is the host code of one numbered block, run from an empty store;
    the comment in the source says what it prints. *)

(** [list(obj.slots)] *)
Definition keys_of (h : heap) (self : addr) : option (list string) :=
  dict_keys <$> slots_of h self.

Definition demo_evaluate : M value :=
  let! m := new_mlist ["say"] in
  let! hi := __init__ None None None (Some (PStr "hi")) None in
  let! d := new_dict [("say", hi)] in
  let! obj1 := __init__ (Some d) None (Some m) None None in
  evaluate echo_host 3 obj1.

Definition demo_copy : M (addr * addr) :=
  let! one := __init__ None None None (Some (PInt 1)) None in
  let! d := new_dict [("a", one)] in
  let! obj2 := __init__ (Some d) None None None None in
  let! obj3 := copy obj2 in
  let! two := __init__ None None None (Some (PInt 2)) None in
  let! _ := assign_slot obj3 "b" two in
  ret (obj2, obj3).

Definition demo_send_message : M value :=
  let! alice := __init__ None None None (Some (PStr "Alice")) None in
  let! d := new_dict [("name", alice)] in
  let! obj4 := __init__ (Some d) None None None None in
  send_message echo_host 3 obj4 "name".

Definition demo_send_message_with_parameters : M value :=
  let! e := __init__ None None None None (Some 0) in
  let! d := new_dict [("echo", e)] in
  let! obj5 := __init__ (Some d) None None None None in
  let! obj6 := __init__ None None None (Some (PStr "Hello")) None in
  send_message_with_parameters echo_host 3 obj5 "echo" obj6.

Definition demo_assign_slot : M value :=
  let! obj7 := __init__ None None None None None in
  let! seven := __init__ None None None (Some (PInt 7)) None in
  let! _ := assign_slot obj7 "n" seven in
  send_message echo_host 3 obj7 "n".

Definition demo_make_parent : M value :=
  let! blue := __init__ None None None (Some (PStr "blue")) None in
  let! d := new_dict [("color", blue)] in
  let! obj8 := __init__ (Some d) None None None None in
  let! obj9 := __init__ None None None None None in
  let! _ := assign_slot obj9 "p" obj8 in
  let! _ := make_parent obj9 "p" in
  send_message echo_host 3 obj9 "color".

Definition demo_assign_parent_slot : M value :=
  let! thirty := __init__ None None None (Some (PInt 30)) None in
  let! d := new_dict [("age", thirty)] in
  let! obj10 := __init__ (Some d) None None None None in
  let! obj11 := __init__ None None None None None in
  let! _ := assign_parent_slot obj11 "parent" obj10 in
  send_message echo_host 3 obj11 "age".

Definition demo_print : M addr :=
  let! one := __init__ None None None (Some (PInt 1)) None in
  let! d := new_dict [("x", one)] in
  __init__ (Some d) None None None None.

(** ** Allocation and ancestry *)

(** A run only allocates when every instance and container that existed
    before it is the same after it, whether the run returns or raises. *)
Definition allocated (h : heap) {A} (r : outcome A) : Prop :=
  match r with
  | Ok _ h' | Raise _ h' => extends h h'
  | Stuck | OutOfFuel => True
  end.

Definition only_allocates (prim : fid → addr → M value) : Prop :=
  ∀ f a h, allocated h (prim f a h).

(** [b] is an entry of the parent list of [a]; an ancestor is reached by
    zero or more such steps. *)
Definition parent_of (h : heap) (a b : addr) : Prop := b ∈ parents_of h a.

Definition ancestor (h : heap) : relation addr := rtc (parent_of h).

(** What the loop of [_bfs_lookup] has established while it has found no
    holder: no visited instance holds the name, and every parent of a
    visited instance is visited or waiting. *)
Definition settled (h : heap) (message : string)
    (queue : list addr) (visited : gset addr) : Prop :=
  ∀ v, v ∈ visited →
    slot_of h v message = None ∧
    ∀ p, parent_of h v p → p ∈ visited ∨ p ∈ queue.

(** Instance 0 is told to send ["x"], and its slot ["x"] holds instance 0. *)
Definition self_loop_heap : heap :=
  Heap [Object 0 0 0 None None] [[("x", 0)]] [[]] [["x"]].

(** Instance 0 is told to send ["k"] and has no slot; its parent, instance
    1, holds ["k"], which is instance 2 with the payload ["v"]. *)
Definition script_heap : heap :=
  Heap [Object 0 0 0 None None; Object 1 1 1 None None;
        Object 2 2 2 (Some (PStr "v")) None]
       [[]; [("k", 2)]; []]
       [[1]; []; []]
       [["k"]; []; []].

(** ** The demonstrations print what the source says they print *)

Example demo_evaluate_prints : rendered (demo_evaluate empty_heap) = Some "hi".
Proof. vm_compute. reflexivity. Qed.

Example demo_copy_prints :
  match demo_copy empty_heap with
  | Ok (obj2, obj3) h => (keys_of h obj2, keys_of h obj3)
  | _ => (None, None)
  end = (Some ["a"], Some ["a"; "b"]).
Proof. vm_compute. reflexivity. Qed.

Example demo_send_message_prints :
  rendered (demo_send_message empty_heap) = Some "Alice".
Proof. vm_compute. reflexivity. Qed.

Example demo_send_message_with_parameters_prints :
  rendered (demo_send_message_with_parameters empty_heap) = Some "Hello".
Proof. vm_compute. reflexivity. Qed.

Example demo_assign_slot_prints :
  rendered (demo_assign_slot empty_heap) = Some "7".
Proof. vm_compute. reflexivity. Qed.

Example demo_make_parent_prints :
  rendered (demo_make_parent empty_heap) = Some "blue".
Proof. vm_compute. reflexivity. Qed.

Example demo_assign_parent_slot_prints :
  rendered (demo_assign_parent_slot empty_heap) = Some "30".
Proof. vm_compute. reflexivity. Qed.

Example demo_print_prints :
  match demo_print empty_heap with
  | Ok obj12 h => print h obj12
  | _ => None
  end = Some (inr "<SelfObjectModel: slots=['x']>").
Proof. vm_compute. reflexivity. Qed.

(** ** The limit of [str] on integers

    The largest integer of 4300 digits is converted and the smallest of
    4301 digits is refused, whatever the sign. *)

Example py_str_limit :
  let bound := (10 ^ int_max_str_digits)%Z in
  py_str (PInt (bound - 1)) = inr (pretty (bound - 1)%Z) ∧
  py_str (PInt (1 - bound)) = inr (pretty (1 - bound)%Z) ∧
  py_str (PInt bound) = inl IntTooLong ∧
  py_str (PInt (- bound)) = inl IntTooLong.
Proof.
  assert (0 < 10 ^ int_max_str_digits)%Z as Hpos by (by apply Z.pow_pos_nonneg).
  unfold py_str. generalize dependent (10 ^ int_max_str_digits)%Z.
  intros bound Hpos. simpl. split_and!.
  - rewrite decide_True; [done|lia].
  - rewrite decide_True; [done|lia].
  - rewrite decide_False; [done|lia].
  - rewrite decide_False; [done|lia].
Qed.

Lemma py_str_inl p e :
  py_str p = inl e →
  e = IntTooLong ∧ ∃ z, p = PInt z ∧ (10 ^ int_max_str_digits ≤ Z.abs z)%Z.
Proof.
  destruct p as [z|[]|s]; unfold py_str; try done.
  destruct (decide (Z.abs z < 10 ^ int_max_str_digits)%Z); [done|].
  intros [= <-]. split; [done|]. exists z. split; [done|lia].
Qed.

(** ** Properties of the lookup *)

Section Lookup.
Context (h : heap) (message : string).

Lemma bfs_loop_mono fuel fuel' queue visited r :
  bfs_loop fuel h message queue visited = r → r ≠ Exhausted → fuel ≤ fuel' →
  bfs_loop fuel' h message queue visited = r.
Proof.
  revert fuel' queue visited.
  induction fuel as [|fuel IH]; intros fuel' queue visited Hr Hne Hle; simpl in Hr.
  { congruence. }
  destruct fuel' as [|fuel']; [lia|]. simpl.
  destruct queue as [|current queue]; [done|].
  destruct (decide (current ∈ visited)); [apply IH; [done..|lia]|].
  destruct (objs h !! current) as [o|]; [|done].
  destruct (dicts h !! slots o) as [d|]; [|done].
  destruct (dict_get d message); [done|].
  destruct (plists h !! parent_slots o); [|done].
  apply IH; [done..|lia].
Qed.

Lemma pending_mono (V V' : gset addr) a : V ⊆ V' → pending h V' a ≤ pending h V a.
Proof. intros HV. unfold pending. repeat case_decide; try lia. exfalso. auto. Qed.

Lemma sum_pending_mono (V V' : gset addr) (l : list addr) :
  V ⊆ V' → sum_list (pending h V' <$> l) ≤ sum_list (pending h V <$> l).
Proof.
  intros HV. induction l as [|x l IH]; csimpl; [lia|].
  pose proof (pending_mono V V' x HV). lia.
Qed.

Lemma sum_pending_visit (V : gset addr) (l : list addr) a :
  a ∈ l → a ∉ V →
  sum_list (pending h ({[a]} ∪ V) <$> l) + length (parents_of h a)
    ≤ sum_list (pending h V <$> l).
Proof.
  intros Hin HV.
  assert (V ⊆ {[a]} ∪ V) as Hsub by apply union_subseteq_r.
  induction l as [|x l IH]; [by apply elem_of_nil in Hin|].
  csimpl. destruct (decide (x = a)) as [->|Hne].
  - pose proof (sum_pending_mono V ({[a]} ∪ V) l Hsub).
    unfold pending at 1 3.
    rewrite decide_True by (apply elem_of_union_l; by apply elem_of_singleton).
    rewrite decide_False by done. lia.
  - apply elem_of_cons in Hin as [?|Hin]; [congruence|].
    specialize (IH Hin). pose proof (pending_mono V ({[a]} ∪ V) x Hsub). lia.
Qed.

Lemma weight_visit (V : gset addr) a o ps :
  objs h !! a = Some o → plists h !! parent_slots o = Some ps → a ∉ V →
  weight h ({[a]} ∪ V) + length ps ≤ weight h V.
Proof.
  intros Ho Hps HV.
  assert (parents_of h a = ps) as <- by (unfold parents_of; by rewrite Ho, Hps).
  apply (sum_pending_visit V (seq 0 (length (objs h))) a); [|done].
  apply elem_of_seq. apply lookup_lt_Some in Ho. lia.
Qed.

(** Every iteration either drops a queue entry or visits a new instance,
    so queue length plus [weight] goes down. *)
Lemma bfs_loop_total fuel queue visited :
  length queue + weight h visited < fuel →
  bfs_loop fuel h message queue visited ≠ Exhausted.
Proof.
  revert queue visited. induction fuel as [|fuel IH]; intros queue visited Hlt; [lia|].
  simpl. destruct queue as [|current queue]; [done|]. simpl in Hlt.
  destruct (decide (current ∈ visited)) as [Hin|Hnin]; [apply IH; lia|].
  destruct (objs h !! current) as [o|] eqn:Ho; [|done].
  destruct (dicts h !! slots o) as [d|]; [|done].
  destruct (dict_get d message); [done|].
  destruct (plists h !! parent_slots o) as [ps|] eqn:Hps; [|done].
  apply IH. rewrite length_app.
  pose proof (weight_visit visited current o ps Ho Hps Hnin).
  pose proof (length_filter (λ p, p ∉ {[current]} ∪ visited) ps). lia.
Qed.

Lemma bfs_lookup_total self : _bfs_lookup h self message ≠ Exhausted.
Proof. apply bfs_loop_total. unfold bfs_fuel. simpl. lia. Qed.

(** A run of the loop that ends, with whatever fuel, is the lookup. *)
Lemma bfs_lookup_intro fuel self r :
  bfs_loop fuel h message [self] ∅ = r → r ≠ Exhausted →
  _bfs_lookup h self message = r.
Proof.
  intros Hr Hne. unfold _bfs_lookup.
  pose proof (bfs_lookup_total self) as Ht. unfold _bfs_lookup in Ht.
  rewrite <- (bfs_loop_mono _ (fuel `max` bfs_fuel h) _ _ _ Hr Hne) by lia.
  symmetry. apply (bfs_loop_mono (bfs_fuel h)); [done|done|lia].
Qed.

End Lookup.

(** *** Agreement with the depth-by-depth search *)

Lemma skips_refl V q : skips V q q.
Proof. induction q; constructor; done. Qed.

Lemma skips_mono (V V' : gset addr) q q' : V ⊆ V' → skips V q q' → skips V' q q'.
Proof. intros HV. induction 1; constructor; auto. Qed.

Lemma skips_app V q1 q1' q2 q2' :
  skips V q1 q1' → skips V q2 q2' → skips V (q1 ++ q2) (q1' ++ q2').
Proof. induction 1; intros; simpl; try constructor; auto. Qed.

Lemma skips_filter (V : gset addr) ps : skips V (filter (λ p, p ∉ V) ps) ps.
Proof.
  induction ps as [|p ps IH]; [constructor|].
  rewrite filter_cons. destruct (decide (p ∉ V)) as [Hp|Hp].
  - by constructor.
  - constructor; [|done]. destruct (decide (p ∈ V)); [done|]. by destruct Hp.
Qed.

Lemma skips_nil_inv V q : skips V q [] → q = [].
Proof. by inversion 1. Qed.

Section Levels.
Context (h : heap) (message : string).

Lemma level_search_mono depth depth' level visited r :
  level_search depth h message level visited = r → r ≠ Exhausted → depth ≤ depth' →
  level_search depth' h message level visited = r.
Proof.
  revert depth' level visited.
  induction depth as [|depth IH]; intros depth' level visited Hr Hne Hle; simpl in Hr.
  { congruence. }
  destruct depth' as [|depth']; [lia|]. simpl.
  destruct level as [|a level]; [done|].
  destruct (scan_level h message (a :: level) visited []); [done..|].
  apply IH; [done..|lia].
Qed.

(** While the loop works through the entries of one depth, its queue is the
    rest of that depth followed by the parents collected so far, except for
    entries it did not enqueue because they were visited already. *)
Lemma bfs_loop_scan level : ∀ queue fuel next visited r,
  skips visited queue (level ++ next) →
  bfs_loop fuel h message queue visited = r → r ≠ Exhausted →
  match scan_level h message level visited next with
  | ScanFound target => r = Found target
  | ScanDangling => r = Dangling
  | ScanNext visited' next' =>
      ∃ fuel' queue', skips visited' queue' next' ∧
        bfs_loop fuel' h message queue' visited' = r ∧
        (fuel' < fuel ∨
         (fuel' = fuel ∧ visited' = visited ∧ next' = next ∧ queue' = queue))
  end.
Proof.
  induction level as [|a level IH]; intros queue fuel next visited r Hs Hr Hne.
  { simpl. exists fuel, queue. rewrite app_nil_l in Hs.
    split_and!; [done..|by right]. }
  simpl in Hs. simpl.
  inversion Hs as [|a' q0 q0' Hs0|a' q0 q0' Hin Hs0]; subst.
  - (* the entry is in the queue *)
    destruct fuel as [|fuel]; [simpl in Hne; done|]. simpl in Hne |- *.
    destruct (decide (a ∈ visited)) as [Hin|Hnin].
    + specialize (IH q0 fuel next visited _ Hs0 eq_refl Hne).
      destruct (scan_level h message level visited next) as [| |V' n']; [done..|].
      destruct IH as (fuel' & queue' & ? & ? & Hf).
      exists fuel', queue'. split_and!; [done..|]. left. lia.
    + destruct (objs h !! a) as [o|]; [|done].
      destruct (dicts h !! slots o) as [d|]; [|done].
      destruct (dict_get d message); [done|].
      destruct (plists h !! parent_slots o) as [ps|]; [|done].
      assert (skips ({[a]} ∪ visited)
                (q0 ++ filter (λ p, p ∉ {[a]} ∪ visited) ps)
                (level ++ next ++ ps)) as Hs1.
      { rewrite (assoc_L (++)). apply skips_app; [|apply skips_filter].
        eapply skips_mono; [|done]. apply union_subseteq_r. }
      specialize (IH _ fuel _ _ _ Hs1 eq_refl Hne).
      destruct (scan_level h message level ({[a]} ∪ visited) (next ++ ps))
        as [| |V' n']; [done..|].
      destruct IH as (fuel' & queue' & ? & ? & Hf).
      exists fuel', queue'. split_and!; [done..|]. left. lia.
  - (* the entry was not enqueued: it is visited *)
    rewrite decide_True by done.
    apply (IH queue fuel next visited _ Hs0 eq_refl Hne).
Qed.

Lemma bfs_loop_level_search fuel : ∀ queue level visited r,
  skips visited queue level →
  bfs_loop fuel h message queue visited = r → r ≠ Exhausted →
  level_search (S fuel) h message level visited = r.
Proof.
  induction (lt_wf fuel) as [fuel _ IH]. intros queue level visited r Hs Hr Hne.
  destruct level as [|a level].
  { apply skips_nil_inv in Hs as ->. destruct fuel; simpl in *; congruence. }
  assert (skips visited queue ((a :: level) ++ [])) as Hs' by by rewrite app_nil_r.
  pose proof (bfs_loop_scan (a :: level) queue fuel [] visited r Hs' Hr Hne) as Hscan.
  cbn [level_search].
  destruct (scan_level h message (a :: level) visited []) as [| |V' n']; [done..|].
  destruct Hscan as (fuel' & queue' & Hs1 & Hr1 & [Hlt|(-> & -> & -> & ->)]).
  - apply (level_search_mono (S fuel')); [|done|lia]. eapply IH; done.
  - apply skips_nil_inv in Hs1 as ->.
    destruct fuel; simpl in *; congruence.
Qed.

Lemma bfs_lookup_level_search self depth :
  bfs_fuel h < depth →
  level_search depth h message [self] ∅ = _bfs_lookup h self message.
Proof.
  intros Hd. apply (level_search_mono (S (bfs_fuel h))); [|apply bfs_lookup_total|lia].
  eapply bfs_loop_level_search; [apply skips_refl|done|apply bfs_lookup_total].
Qed.

(** *** Single iterations, and the lookups they add up to *)

Lemma bfs_loop_pass fuel current queue visited o d ps :
  current ∉ visited →
  objs h !! current = Some o → dicts h !! slots o = Some d →
  dict_get d message = None → plists h !! parent_slots o = Some ps →
  bfs_loop (S fuel) h message (current :: queue) visited =
  bfs_loop fuel h message (queue ++ filter (λ p, p ∉ {[current]} ∪ visited) ps)
           ({[current]} ∪ visited).
Proof. intros Hv Ho Hd Hg Hps. simpl. by rewrite decide_False, Ho, Hd, Hg, Hps. Qed.

Lemma bfs_loop_hit fuel current queue visited o d target :
  current ∉ visited →
  objs h !! current = Some o → dicts h !! slots o = Some d →
  dict_get d message = Some target →
  bfs_loop (S fuel) h message (current :: queue) visited = Found target.
Proof. intros Hv Ho Hd Hg. simpl. by rewrite decide_False, Ho, Hd, Hg. Qed.

Lemma bfs_lookup_direct self o d target :
  objs h !! self = Some o → dicts h !! slots o = Some d →
  dict_get d message = Some target →
  _bfs_lookup h self message = Found target.
Proof.
  intros Ho Hd Hg. apply (bfs_lookup_intro h message 1); [|done].
  eapply bfs_loop_hit; [apply not_elem_of_empty|done..].
Qed.

Lemma bfs_lookup_tie_break R P1 P2 oR oP1 oP2 dR dP1 dP2 psP1 v :
  objs h !! R = Some oR → dicts h !! slots oR = Some dR →
  dict_get dR message = None → plists h !! parent_slots oR = Some [P1; P2] →
  objs h !! P1 = Some oP1 → dicts h !! slots oP1 = Some dP1 →
  dict_get dP1 message = None → plists h !! parent_slots oP1 = Some psP1 →
  objs h !! P2 = Some oP2 → dicts h !! slots oP2 = Some dP2 →
  dict_get dP2 message = Some v →
  _bfs_lookup h R message = Found v.
Proof.
  intros HR HdR HgR HpR HP1 HdP1 HgP1 HpP1 HP2 HdP2 HgP2.
  assert (P2 ≠ R) as HP2R by (intros ->; congruence).
  assert (P2 ≠ P1) as HP2P1 by (intros ->; congruence).
  assert (P2 ∉ ({[R]} ∪ ∅ : gset addr)) as HnR
    by (intros [?%elem_of_singleton|?%elem_of_empty]%elem_of_union; done).
  assert (P2 ∉ ({[P1]} ∪ ({[R]} ∪ ∅) : gset addr)) as HnP1
    by (intros [?%elem_of_singleton|?]%elem_of_union; done).
  apply (bfs_lookup_intro h message 3); [|done].
  erewrite bfs_loop_pass by (done || apply not_elem_of_empty).
  rewrite app_nil_l, !filter_cons, filter_nil.
  rewrite (decide_True (P:=P2 ∉ _)) by done.
  destruct (decide (P1 ∉ {[R]} ∪ ∅)) as [Hn|Hn].
  - erewrite bfs_loop_pass by done. by eapply bfs_loop_hit.
  - by eapply bfs_loop_hit.
Qed.

Lemma bfs_lookup_mutual_parents A B oA oB dA dB :
  objs h !! A = Some oA → objs h !! B = Some oB →
  plists h !! parent_slots oA = Some [B] → plists h !! parent_slots oB = Some [A] →
  dicts h !! slots oA = Some dA → dicts h !! slots oB = Some dB →
  dict_get dA message = None → dict_get dB message = None →
  _bfs_lookup h A message = NotFound.
Proof.
  intros HA HB HpA HpB HdA HdB HgA HgB.
  assert (¬ (A ∉ ({[B]} ∪ ({[A]} ∪ ∅) : gset addr))) as HnA
    by (intros Hn; apply Hn, elem_of_union_r, elem_of_union_l; by apply elem_of_singleton).
  apply (bfs_lookup_intro h message 3); [|done].
  erewrite bfs_loop_pass by (done || apply not_elem_of_empty).
  rewrite app_nil_l, filter_cons, filter_nil.
  destruct (decide (B ∉ {[A]} ∪ ∅)) as [Hn|Hn]; [|done].
  erewrite bfs_loop_pass by done.
  rewrite app_nil_l, filter_cons, filter_nil.
  by rewrite decide_False.
Qed.

End Levels.

(** *** Agreement with the breadth-first order *)

Lemma closed_spec h a o :
  closed h = true → objs h !! a = Some o →
  ∃ d ps, dicts h !! slots o = Some d ∧ plists h !! parent_slots o = Some ps ∧
          Forall (λ p, p < length (objs h)) ps.
Proof.
  unfold closed. intros Hall%Is_true_true Ho. rewrite forallb_True in Hall.
  rewrite Forall_lookup in Hall. specialize (Hall a o Ho).
  apply andb_True in Hall as [Hd Hp]. apply bool_decide_unpack in Hd as [d Hd].
  destruct (plists h !! parent_slots o) as [ps|]; [|done].
  exists d, ps. split_and!; [done..|].
  apply forallb_True in Hp. eapply Forall_impl; [done|].
  intros p. apply bool_decide_unpack.
Qed.

Section Order.
Context (h : heap) (message : string) (Hclosed : closed h = true).

Lemma scan_level_order level : ∀ visited next,
  Forall (λ a, a < length (objs h)) level →
  scan_level h message level visited next =
    match head (omap (λ a, slot_of h a message) (fresh_nodes level visited)) with
    | Some target => ScanFound target
    | None =>
        ScanNext (list_to_set (fresh_nodes level visited) ∪ visited)
                 (next ++ (fresh_nodes level visited ≫= parents_of h))
    end.
Proof.
  induction level as [|a level IH]; intros visited next Hlt; simpl.
  { by rewrite app_nil_r, (left_id_L ∅ (∪)). }
  apply Forall_cons in Hlt as [Ha Hlt].
  destruct (decide (a ∈ visited)) as [Hin|Hnin]; [by apply IH|].
  destruct (lookup_lt_is_Some_2 _ _ Ha) as [o Ho].
  destruct (closed_spec h a o Hclosed Ho) as (d & ps & Hd & Hps & _).
  rewrite Ho, Hd. simpl. unfold slot_of at 1, slots_of.
  rewrite Ho. simpl. rewrite Hd. simpl.
  destruct (dict_get d message) as [target|]; [done|].
  rewrite Hps, IH by done.
  destruct (head _); [done|].
  assert (parents_of h a = ps) as Hpa by (unfold parents_of; by rewrite Ho, Hps).
  f_equal.
  - by rewrite (comm_L (∪) {[a]} (list_to_set _)), <- (assoc_L (∪)).
  - by rewrite Hpa, <- (assoc_L (++)).
Qed.

Lemma fresh_nodes_parents_lt level visited :
  Forall (λ a, a < length (objs h)) level →
  Forall (λ a, a < length (objs h)) (fresh_nodes level visited ≫= parents_of h).
Proof.
  revert visited. induction level as [|a level IH]; intros visited Hlt; simpl; [done|].
  apply Forall_cons in Hlt as [Ha Hlt].
  destruct (decide (a ∈ visited)); [by apply IH|].
  rewrite bind_cons. apply Forall_app. split; [|by apply IH].
  destruct (lookup_lt_is_Some_2 _ _ Ha) as [o Ho].
  destruct (closed_spec h a o Hclosed Ho) as (d & ps & Hd & Hps & Hall).
  unfold parents_of. by rewrite Ho, Hps.
Qed.

Lemma bfs_order_nil depth visited : bfs_order depth h [] visited = [].
Proof.
  revert visited. induction depth as [|depth IH]; intros visited; simpl; [done|apply IH].
Qed.

Lemma level_search_order depth : ∀ level visited,
  Forall (λ a, a < length (objs h)) level →
  level_search depth h message level visited ≠ Exhausted →
  level_search depth h message level visited
    = first_holder h message (bfs_order depth h level visited).
Proof.
  induction depth as [|depth IH]; intros level visited Hlt Hne; [done|].
  destruct level as [|a level]; [by rewrite bfs_order_nil|].
  cbn [level_search bfs_order] in *. unfold first_holder. rewrite omap_app.
  rewrite scan_level_order in * by done.
  set (nodes := fresh_nodes (a :: level) visited) in *.
  destruct (omap _ nodes) as [|t ts] eqn:Hh; simpl in *; [|done].
  apply IH; [|done]. apply (fresh_nodes_parents_lt (a :: level) visited Hlt).
Qed.
End Order.

Lemma bfs_lookup_first_holder h message self depth :
  closed h = true → self < length (objs h) → bfs_fuel h < depth →
  _bfs_lookup h self message = first_holder h message (bfs_order depth h [self] ∅).
Proof.
  intros Hc Hs Hd. rewrite <- (bfs_lookup_level_search h message self depth Hd).
  apply level_search_order; [done|by apply Forall_singleton|].
  rewrite (bfs_lookup_level_search h message self depth Hd). apply bfs_lookup_total.
Qed.

(** C2.  The lookup behind [send_message] and
    [send_message_with_parameters] hands back the slot value of the first
    instance that holds the name in breadth-first order, that order being
    the receiver, then its parents in declared order, then their parents,
    and so on, each instance once.  It agrees with the search that examines
    one depth after the other.  A slot of the receiver therefore wins over
    anything reachable through parents; and for a receiver [R] with parents
    [P1], [P2], where neither [R] nor [P1] holds the name, a parent [G] of
    [P1] holds it and [P2] holds it, the lookup and [send_message] resolve
    to what [P2] holds. *)
Theorem bfs_lookup_breadth_first (prim : fid → addr → M value) h message :
  (closed h = true →
   ∀ self depth, self < length (objs h) → bfs_fuel h < depth →
     _bfs_lookup h self message
       = first_holder h message (bfs_order depth h [self] ∅)) ∧
  (∀ self depth, bfs_fuel h < depth →
     _bfs_lookup h self message = level_search depth h message [self] ∅) ∧
  (∀ self o d target,
     objs h !! self = Some o → dicts h !! slots o = Some d →
     dict_get d message = Some target →
     _bfs_lookup h self message = Found target) ∧
  (∀ R P1 P2 G oR oP1 oP2 oG dR dP1 dP2 dG psP1 v g fuel,
     objs h !! R = Some oR → dicts h !! slots oR = Some dR →
     dict_get dR message = None → plists h !! parent_slots oR = Some [P1; P2] →
     objs h !! P1 = Some oP1 → dicts h !! slots oP1 = Some dP1 →
     dict_get dP1 message = None → plists h !! parent_slots oP1 = Some psP1 →
     G ∈ psP1 →
     objs h !! G = Some oG → dicts h !! slots oG = Some dG →
     dict_get dG message = Some g →
     objs h !! P2 = Some oP2 → dicts h !! slots oP2 = Some dP2 →
     dict_get dP2 message = Some v →
     _bfs_lookup h R message = Found v ∧
     send_message prim fuel R message h = evaluate prim fuel v h).
Proof.
  split_and!.
  - intros Hc self depth Hs Hd. by apply bfs_lookup_first_holder.
  - intros self depth Hd. symmetry. by apply bfs_lookup_level_search.
  - intros self o d target. apply bfs_lookup_direct.
  - intros R P1 P2 G oR oP1 oP2 oG dR dP1 dP2 dG psP1 v g fuel
           HR HdR HgR HpR HP1 HdP1 HgP1 HpP1 _ _ _ _ HP2 HdP2 HgP2.
    assert (_bfs_lookup h R message = Found v) as Hl
      by (eapply (bfs_lookup_tie_break h message R P1 P2); done).
    split; [done|]. unfold send_message, send_message_with. by rewrite Hl.
Qed.

(** C3.  The lookup ends on every store, cyclic or not: each iteration
    either drops a queue entry or marks a new instance as visited, so the
    loop is over before the queue length plus the parent entries of the
    unvisited instances are used up, and more iterations than that change
    nothing.  For two instances that are each other's parent and hold the
    name nowhere, the lookup finds nothing and [send_message] raises the
    message-not-found error. *)
Theorem bfs_lookup_terminates (prim : fid → addr → M value) h message :
  (∀ self, _bfs_lookup h self message ≠ Exhausted) ∧
  (∀ fuel queue visited, length queue + weight h visited < fuel →
     bfs_loop fuel h message queue visited ≠ Exhausted) ∧
  (∀ self fuel, bfs_fuel h ≤ fuel →
     bfs_loop fuel h message [self] ∅ = _bfs_lookup h self message) ∧
  (∀ A B oA oB dA dB fuel,
     objs h !! A = Some oA → objs h !! B = Some oB →
     plists h !! parent_slots oA = Some [B] →
     plists h !! parent_slots oB = Some [A] →
     dicts h !! slots oA = Some dA → dicts h !! slots oB = Some dB →
     dict_get dA message = None → dict_get dB message = None →
     _bfs_lookup h A message = NotFound ∧
     send_message prim fuel A message h = Raise (MessageNotFound message) h).
Proof.
  split_and!.
  - apply bfs_lookup_total.
  - apply bfs_loop_total.
  - intros self fuel Hf.
    apply (bfs_loop_mono h message (bfs_fuel h)); [done|apply bfs_lookup_total|done].
  - intros A B oA oB dA dB fuel HA HB HpA HpB HdA HdB HgA HgB.
    assert (_bfs_lookup h A message = NotFound) as Hl
      by (eapply (bfs_lookup_mutual_parents h message A B); done).
    split; [done|]. unfold send_message, send_message_with. by rewrite Hl.
Qed.

(** ** Properties of allocation, the constructor and [copy] *)

Lemma lookup_snoc_new {A} (l : list A) x : (l ++ [x]) !! length l = Some x.
Proof. by rewrite lookup_app_r, Nat.sub_diag by lia. Qed.

Lemma dup_spec {X} (st : list (list X)) l c :
  st !! l = Some c →
  ∃ l' st', dup st l = Some (l', st') ∧ st `prefix_of` st' ∧
            st !! l' = None ∧ st' !! l' = Some c.
Proof.
  intros Hl. unfold dup, copy_container, alloc. rewrite Hl. simpl.
  rewrite lookup_snoc_new. destruct c as [|x c].
  - exists (length (st ++ [[]])), ((st ++ [[]]) ++ [[]]). split_and!.
    + done.
    + rewrite <- (assoc_L (++)). by apply prefix_app_r.
    + apply lookup_ge_None. rewrite length_app. simpl. lia.
    + apply lookup_snoc_new.
  - exists (length st), (st ++ [x :: c]). split_and!.
    + done.
    + by apply prefix_app_r.
    + by apply lookup_ge_None.
    + apply lookup_snoc_new.
Qed.

Lemma copy_unfold h self o :
  objs h !! self = Some o →
  copy self h =
  match dup (dicts h) (slots o), dup (plists h) (parent_slots o),
        dup (mlists h) (messages o) with
  | Some (s, ds), Some (p, ps), Some (m, ms) =>
      Ok (length (objs h))
         (Heap (objs h ++ [Object s p m (primitive_value o) (primitive_function o)])
               ds ps ms)
  | _, _, _ => Stuck
  end.
Proof.
  intros Ho. unfold copy, dup, __init__. rewrite Ho.
  destruct (copy_container (dicts h) (slots o)) as [[s ds]|]; simpl; [|done].
  destruct (copy_container (plists h) (parent_slots o)) as [[p ps]|]; simpl;
    [|by repeat case_match].
  destruct (copy_container (mlists h) (messages o)) as [[m ms]|]; simpl;
    [done|by repeat case_match].
Qed.

Lemma copy_spec h self o d ps ms :
  objs h !! self = Some o → dicts h !! slots o = Some d →
  plists h !! parent_slots o = Some ps → mlists h !! messages o = Some ms →
  ∃ oc h', copy self h = Ok (length (objs h)) h' ∧ extends h h' ∧
    objs h' = objs h ++ [oc] ∧
    dicts h !! slots oc = None ∧ dicts h' !! slots oc = Some d ∧
    plists h !! parent_slots oc = None ∧ plists h' !! parent_slots oc = Some ps ∧
    mlists h !! messages oc = None ∧ mlists h' !! messages oc = Some ms ∧
    primitive_value oc = primitive_value o ∧
    primitive_function oc = primitive_function o.
Proof.
  intros Ho Hd Hps Hms. rewrite (copy_unfold h self o Ho).
  destruct (dup_spec _ _ _ Hd) as (s & ds & -> & ? & ? & ?).
  destruct (dup_spec _ _ _ Hps) as (p & pss & -> & ? & ? & ?).
  destruct (dup_spec _ _ _ Hms) as (m & mss & -> & ? & ? & ?).
  eexists _, _. split; [done|]. simpl.
  split_and!; try done. split_and!; try done. by apply prefix_app_r.
Qed.

Lemma dict_get_set d k v : dict_get (dict_set d k v) k = Some v.
Proof.
  induction d as [|[k' v'] d IH]; simpl.
  - by rewrite decide_True.
  - destruct (decide (k' = k)) as [->|Hne]; simpl.
    + by rewrite decide_True.
    + by rewrite decide_False.
Qed.

Lemma extends_lookup h h' :
  extends h h' →
  (∀ a o, objs h !! a = Some o → objs h' !! a = Some o) ∧
  (∀ l d, dicts h !! l = Some d → dicts h' !! l = Some d) ∧
  (∀ l ps, plists h !! l = Some ps → plists h' !! l = Some ps) ∧
  (∀ l ms, mlists h !! l = Some ms → mlists h' !! l = Some ms).
Proof.
  intros (Ho & Hd & Hp & Hm).
  split_and!; intros ???; by eapply prefix_lookup_Some.
Qed.

Lemma extends_refl h : extends h h.
Proof. by repeat split. Qed.

Lemma extends_trans h1 h2 h3 : extends h1 h2 → extends h2 h3 → extends h1 h3.
Proof. intros (?&?&?&?) (?&?&?&?). repeat split; by etrans. Qed.

Lemma assign_slot_spec h self name obj o d :
  objs h !! self = Some o → dicts h !! slots o = Some d →
  ∃ h', assign_slot self name obj h = Ok () h' ∧
    objs h' = objs h ∧ plists h' = plists h ∧ mlists h' = mlists h ∧
    dicts h' !! slots o = Some (dict_set d name obj) ∧
    (∀ l, l ≠ slots o → dicts h' !! l = dicts h !! l).
Proof.
  intros Ho Hd. unfold assign_slot. rewrite Ho, Hd. eexists. split; [done|]. simpl.
  split_and!; try done.
  - apply list_lookup_insert_eq. by eapply lookup_lt_Some.
  - intros l Hl. by apply list_lookup_insert_ne.
Qed.

(** C7.  [copy] leaves the receiver as it was: its five attributes and the
    contents of its three containers are the same after the call, and so is
    everything else that existed.  The result is a new instance whose three
    containers are new as well and hold what the receiver's hold, so every
    slot of the copy names the very same instance as the receiver's slot;
    [primitive_value] and [primitive_function] are carried over as they
    are.  An [assign_slot] on the copy does not change the receiver's slots,
    and an [assign_slot] on the receiver does not change the copy's. *)
Theorem copy_is_shallow h self o d ps ms :
  objs h !! self = Some o → dicts h !! slots o = Some d →
  plists h !! parent_slots o = Some ps → mlists h !! messages o = Some ms →
  ∃ c oc h',
    copy self h = Ok c h' ∧
    extends h h' ∧
    (objs h' !! self = Some o ∧ dicts h' !! slots o = Some d ∧
     plists h' !! parent_slots o = Some ps ∧ mlists h' !! messages o = Some ms) ∧
    (objs h !! c = None ∧ objs h' !! c = Some oc) ∧
    (dicts h !! slots oc = None ∧ plists h !! parent_slots oc = None ∧
     mlists h !! messages oc = None) ∧
    (dicts h' !! slots oc = Some d ∧ plists h' !! parent_slots oc = Some ps ∧
     mlists h' !! messages oc = Some ms) ∧
    (primitive_value oc = primitive_value o ∧
     primitive_function oc = primitive_function o) ∧
    (∀ name, slot_of h' c name = slot_of h self name) ∧
    (∀ name x, ∃ h1, assign_slot c name x h' = Ok () h1 ∧
       slots_of h1 self = Some d ∧
       slots_of h1 c = Some (dict_set d name x)) ∧
    (∀ name x, ∃ h1, assign_slot self name x h' = Ok () h1 ∧
       slots_of h1 c = Some d ∧
       slots_of h1 self = Some (dict_set d name x)).
Proof.
  intros Ho Hd Hps Hms.
  destruct (copy_spec h self o d ps ms Ho Hd Hps Hms)
    as (oc & h' & Hc & Hext & Hobjs & Hd0 & Hd1 & Hp0 & Hp1 & Hm0 & Hm1 & Hpv & Hpf).
  destruct (extends_lookup h h' Hext) as (Eo & Ed & Ep & Em).
  assert (objs h' !! length (objs h) = Some oc) as Hoc
    by (rewrite Hobjs; apply lookup_snoc_new).
  assert (slots oc ≠ slots o) as Hne by congruence.
  exists (length (objs h)), oc, h'. split_and!; auto.
  - by apply lookup_ge_None.
  - intros name. unfold slot_of, slots_of. rewrite Hoc, Ho. simpl. by rewrite Hd1, Hd.
  - intros name x.
    destruct (assign_slot_spec h' _ name x oc d Hoc Hd1)
      as (h1 & -> & Eobjs & _ & _ & Hs & Hoth).
    exists h1. unfold slots_of. rewrite Eobjs, Hoc, (Eo _ _ Ho). simpl.
    split_and!; [done| |done]. rewrite Hoth by done. auto.
  - intros name x.
    destruct (assign_slot_spec h' self name x o d (Eo _ _ Ho) (Ed _ _ Hd))
      as (h1 & -> & Eobjs & _ & _ & Hs & Hoth).
    exists h1. unfold slots_of. rewrite Eobjs, Hoc, (Eo _ _ Ho). simpl.
    split_and!; [done| |done]. rewrite Hoth by done. auto.
Qed.

(** ** Properties of the mutators *)

(** C6.  [make_parent] raises the slot-not-found error exactly when the
    name is absent from the receiver's slots, and then the store is the one
    it started from.  When the name is present, the instance stored under it
    is appended to the receiver's parent list and nothing else changes: the
    slot entry stays, so that instance is both a slot and a parent. *)
Theorem make_parent_spec h self name o d ps :
  objs h !! self = Some o → dicts h !! slots o = Some d →
  plists h !! parent_slots o = Some ps →
  ((∃ h', make_parent self name h = Raise (SlotNotFound name) h')
     ↔ dict_get d name = None) ∧
  (dict_get d name = None → make_parent self name h = Raise (SlotNotFound name) h) ∧
  (∀ v, dict_get d name = Some v →
     ∃ h', make_parent self name h = Ok () h' ∧
       objs h' = objs h ∧ dicts h' = dicts h ∧ mlists h' = mlists h ∧
       plists h' = <[parent_slots o := ps ++ [v]]> (plists h) ∧
       parent_slots_of h' self = Some (ps ++ [v]) ∧
       slot_of h' self name = Some v).
Proof.
  intros Ho Hd Hps. unfold make_parent. rewrite Ho, Hd, Hps.
  destruct (dict_get d name) as [v|] eqn:Hg.
  - split_and!; [|done|].
    + split; [intros [h' ?]|]; done.
    + intros ? [= <-]. eexists. split; [done|]. simpl. split_and!; try done.
      * unfold parent_slots_of. simpl. rewrite Ho. simpl.
        by rewrite list_lookup_insert_eq by (by eapply lookup_lt_Some).
      * unfold slot_of, slots_of. simpl. rewrite Ho. simpl. by rewrite Hd.
  - split_and!; [|done|done]. split; [done|]. eauto.
Qed.

(** ** Properties of the constructor *)

Lemma or_empty_spec {X} (st : list (list X)) arg :
  valid_arg st arg →
  ∃ l' st', or_empty st arg = Some (l', st') ∧ kept_or_fresh st st' arg l'.
Proof.
  intros Hv. unfold or_empty, kept_or_fresh, alloc. destruct arg as [l|]; [|by eauto].
  destruct (Hv l eq_refl) as [c ->]. destruct c; eauto.
Qed.

(** After the host changed the container it passed, the new instance sees
    the change if the container was non-empty when passed, and still sees
    its own empty container if not. *)
Lemma kept_or_fresh_update {X} (st st' : list (list X)) arg l c l' f :
  arg = Some l → st !! l = Some c → kept_or_fresh st st' arg l' →
  <[l := f c]> st' !! l' = Some (match c with [] => [] | _ :: _ => f c end).
Proof.
  intros -> Hl. unfold kept_or_fresh. rewrite Hl. apply lookup_lt_Some in Hl as Hlt.
  destruct c as [|x c]; intros [-> ->].
  - rewrite list_lookup_insert_ne by lia. apply lookup_snoc_new.
  - by rewrite list_lookup_insert_eq.
Qed.

Lemma kept_or_fresh_lookup {X} (st st' : list (list X)) arg l c l' :
  arg = Some l → st !! l = Some c → kept_or_fresh st st' arg l' →
  st' !! l = Some c.
Proof.
  intros -> Hl. unfold kept_or_fresh. rewrite Hl.
  destruct c as [|x c]; intros [-> ->]; [|done]. by apply lookup_app_l_Some.
Qed.

(** C9.  The constructor makes no copy of a container it is given.  A
    non-empty dict or list passed as [slots], [parent_slots] or [messages]
    becomes the attribute itself, by reference, and no container is
    created for it; so when the host afterwards assigns into the dict or
    appends to the list it passed, the instance's attribute shows the
    change.  Only [None] or an empty container is replaced by a new empty
    one, and then a later change to what was passed does not show. *)
Theorem init_keeps_references h sl pl ml pv pf :
  valid_arg (dicts h) sl → valid_arg (plists h) pl → valid_arg (mlists h) ml →
  ∃ self o h',
    __init__ sl pl ml pv pf h = Ok self h' ∧
    objs h !! self = None ∧ objs h' !! self = Some o ∧
    primitive_value o = pv ∧ primitive_function o = pf ∧
    kept_or_fresh (dicts h) (dicts h') sl (slots o) ∧
    kept_or_fresh (plists h) (plists h') pl (parent_slots o) ∧
    kept_or_fresh (mlists h) (mlists h') ml (messages o) ∧
    (∀ l d k v, sl = Some l → dicts h !! l = Some d →
       ∃ h2, dict_setitem l k v h' = Ok () h2 ∧
         slots_of h2 self =
           Some (match d with [] => [] | _ :: _ => dict_set d k v end)) ∧
    (∀ l ps a, pl = Some l → plists h !! l = Some ps →
       ∃ h2, plist_append l a h' = Ok () h2 ∧
         parent_slots_of h2 self =
           Some (match ps with [] => [] | _ :: _ => ps ++ [a] end)) ∧
    (∀ l ms m, ml = Some l → mlists h !! l = Some ms →
       ∃ h2, mlist_append l m h' = Ok () h2 ∧
         messages_of h2 self =
           Some (match ms with [] => [] | _ :: _ => ms ++ [m] end)).
Proof.
  intros Hs Hp Hm. unfold __init__.
  destruct (or_empty_spec _ _ Hs) as (s & ds & -> & Ks).
  destruct (or_empty_spec _ _ Hp) as (p & ps & -> & Kp).
  destruct (or_empty_spec _ _ Hm) as (m & ms & -> & Km).
  eexists (length (objs h)), (Object s p m pv pf), _. split; [done|]. simpl.
  split_and!; try done.
  - by apply lookup_ge_None.
  - apply lookup_snoc_new.
  - intros l d k v El Hl. unfold dict_setitem, slots_of. simpl.
    rewrite (kept_or_fresh_lookup _ _ _ _ _ _ El Hl Ks). eexists; split; [done|]. simpl.
    rewrite lookup_snoc_new. simpl.
    apply (kept_or_fresh_update _ _ _ _ _ _ (λ d, dict_set d k v) El Hl Ks).
  - intros l c a El Hl. unfold plist_append, parent_slots_of. simpl.
    rewrite (kept_or_fresh_lookup _ _ _ _ _ _ El Hl Kp). eexists; split; [done|]. simpl.
    rewrite lookup_snoc_new. simpl.
    apply (kept_or_fresh_update _ _ _ _ _ _ (λ c, c ++ [a]) El Hl Kp).
  - intros l c a El Hl. unfold mlist_append, messages_of. simpl.
    rewrite (kept_or_fresh_lookup _ _ _ _ _ _ El Hl Km). eexists; split; [done|]. simpl.
    rewrite lookup_snoc_new. simpl.
    apply (kept_or_fresh_update _ _ _ _ _ _ (λ c, c ++ [a]) El Hl Km).
Qed.

(** ** Properties of evaluation *)

Lemma dup_prefix {X} (st st' : list (list X)) l l' :
  dup st l = Some (l', st') → st `prefix_of` st'.
Proof.
  unfold dup, copy_container. destruct (st !! l) as [c|] eqn:Hl; [|done].
  destruct (dup_spec st l c Hl) as (l1 & st1 & E & Hp & _).
  unfold dup, copy_container in E. rewrite Hl in E. simpl in *. congruence.
Qed.

Lemma copy_inv self h :
  (∃ h', copy self h = Ok (length (objs h)) h' ∧ extends h h') ∨ copy self h = Stuck.
Proof.
  destruct (objs h !! self) as [o|] eqn:Ho; [|right; unfold copy; by rewrite Ho].
  rewrite (copy_unfold h self o Ho).
  destruct (dup (dicts h) (slots o)) as [[s ds]|] eqn:Hd; [|by right].
  destruct (dup (plists h) (parent_slots o)) as [[p ps]|] eqn:Hp; [|by right].
  destruct (dup (mlists h) (messages o)) as [[m ms]|] eqn:Hm; [|by right].
  left. eexists. split; [done|]. repeat split; simpl.
  - by apply prefix_app_r.
  - by eapply dup_prefix.
  - by eapply dup_prefix.
  - by eapply dup_prefix.
Qed.



Lemma echo_host_keeps_messages : keeps_messages echo_host.
Proof.
  intros f a h r h'. unfold echo_host, echo.
  repeat case_match; try done. by intros [= _ <-].
Qed.

Section Evaluation.
Context (prim : fid → addr → M value).

Lemma evaluate_unfold fuel h self o ms :
  objs h !! self = Some o → mlists h !! messages o = Some ms →
  evaluate prim (S fuel) self h =
    match ms with
    | _ :: _ =>
        (let! obj_copy := copy self in
         for_messages (send_message prim fuel obj_copy) fuel (messages o) 0 VNone) h
    | [] =>
        match primitive_function o with
        | Some f => (let! c := copy self in prim f c) h
        | None =>
            match primitive_value o with
            | Some _ => (let! c := copy self in ret (VObj c)) h
            | None => Ok (VObj self) h
            end
        end
    end.
Proof. intros Ho Hms. simpl. rewrite Ho, Hms. by destruct ms. Qed.

Lemma for_messages_keeps send n l i result h r h' :
  (∀ m h r h', send m h = Ok r h' → mlists h `prefix_of` mlists h') →
  for_messages send n l i result h = Ok r h' → mlists h `prefix_of` mlists h'.
Proof.
  intros Hsend. revert i result h.
  induction n as [|n IH]; intros i result h; simpl; [done|].
  destruct (mlists h !! l) as [ms|]; [|done].
  destruct (ms !! i) as [m|]; [|by intros [= _ ->]].
  destruct (send m h) as [r1 h1| | |] eqn:Hs; try done.
  intros Hf. etrans; [by eapply Hsend|by eapply IH].
Qed.

Lemma evaluate_keeps_messages fuel : keeps_messages prim →
  ∀ self h r h', evaluate prim fuel self h = Ok r h' → mlists h `prefix_of` mlists h'.
Proof.
  intros Hprim. induction fuel as [|fuel IH]; intros self h r h'; simpl; [done|].
  destruct (objs h !! self) as [o|]; [|done].
  destruct (mlists h !! messages o) as [[|m ms]|]; [| |done].
  - destruct (primitive_function o) as [f|].
    + unfold bind. destruct (copy_inv self h) as [(h1 & -> & He)| ->]; [|done].
      intros Hf. etrans; [apply He|by eapply Hprim].
    + destruct (primitive_value o).
      * unfold bind, ret. destruct (copy_inv self h) as [(h1 & -> & He)| ->]; [|done].
        intros [= _ <-]. apply He.
      * by intros [= _ <-].
  - unfold bind. destruct (copy_inv self h) as [(h1 & -> & He)| ->]; [|done].
    intros Hf. etrans; [apply He|]. eapply for_messages_keeps; [|done].
    intros m0 h0 r0 h0'. unfold send_message_with.
    destruct (_bfs_lookup h0 (length (objs h)) m0); try done. apply IH.
Qed.




Lemma evaluate_primitive_value fuel h self o d ps p :
  objs h !! self = Some o → dicts h !! slots o = Some d →
  plists h !! parent_slots o = Some ps → mlists h !! messages o = Some [] →
  primitive_function o = None → primitive_value o = Some p →
  ∃ oc h', evaluate prim (S fuel) self h = Ok (VObj (length (objs h))) h' ∧
    copy self h = Ok (length (objs h)) h' ∧ extends h h' ∧
    objs h' !! length (objs h) = Some oc ∧ primitive_value oc = Some p.
Proof.
  intros Ho Hd Hps Hms Hpf Hpv.
  rewrite (evaluate_unfold fuel h self o [] Ho Hms), Hpf, Hpv.
  destruct (copy_spec h self o d ps [] Ho Hd Hps Hms)
    as (oc & h' & Hc & Hext & Hobjs & _ & _ & _ & _ & _ & _ & Hpv' & _).
  exists oc, h'. unfold bind, ret. rewrite Hc. split_and!; try done.
  - rewrite Hobjs. apply lookup_snoc_new.
  - congruence.
Qed.


Lemma evaluate_self_loop h a o d ps m ms :
  objs h !! a = Some o → dicts h !! slots o = Some d →
  plists h !! parent_slots o = Some ps → mlists h !! messages o = Some (m :: ms) →
  dict_get d m = Some a →
  ∀ fuel h1, extends h h1 → evaluate prim fuel a h1 = OutOfFuel.
Proof.
  intros Ho Hd Hps Hms Hg.
  induction fuel as [|fuel IH]; intros h1 Hext; [done|].
  destruct (extends_lookup h h1 Hext) as (Eo & Ed & Ep & Em).
  rewrite (evaluate_unfold fuel h1 a o (m :: ms) (Eo _ _ Ho) (Em _ _ Hms)).
  destruct (copy_spec h1 a o d ps (m :: ms) (Eo _ _ Ho) (Ed _ _ Hd) (Ep _ _ Hps)
              (Em _ _ Hms))
    as (oc & h2 & Hc & Hext2 & Hobjs & _ & Hd2 & _).
  destruct (extends_lookup h1 h2 Hext2) as (_ & _ & _ & Em2).
  unfold bind. rewrite Hc. destruct fuel as [|fuel]; [done|].
  cbn [for_messages]. rewrite (Em2 _ _ (Em _ _ Hms)). cbn [lookup list_lookup].
  unfold send_message, send_message_with.
  assert (objs h2 !! length (objs h1) = Some oc) as Hoc
    by (rewrite Hobjs; apply lookup_snoc_new).
  rewrite (bfs_lookup_direct h2 m _ oc d a Hoc Hd2 Hg).
  rewrite IH; [done|]. by eapply extends_trans.
Qed.


(** C10.  A payload counts as set when it is not [None], whatever its truth
    value.  For a receiver without messages and without a
    [primitive_function] whose payload is [0], [False] or the empty string,
    [evaluate] hands back a copy, a new instance with the same payload, not
    the receiver; and the rendering is the payload's text, which [str]
    returns for each of the three, not the slot list. *)
Theorem falsy_primitive_value_is_set fuel h self o d ps p :
  objs h !! self = Some o → dicts h !! slots o = Some d →
  plists h !! parent_slots o = Some ps → mlists h !! messages o = Some [] →
  primitive_function o = None → primitive_value o = Some p → truthy p = false →
  (∃ c oc h', evaluate prim (S fuel) self h = Ok (VObj c) h' ∧
     copy self h = Ok c h' ∧ c ≠ self ∧ objs h !! c = None ∧
     objs h' !! c = Some oc ∧ primitive_value oc = Some p) ∧
  __str__ h self = Some (py_str p) ∧
  (p = PInt 0 ∧ py_str p = inr "0" ∨ p = PBool false ∧ py_str p = inr "False" ∨
   p = PStr "" ∧ py_str p = inr "").
Proof.
  intros Ho Hd Hps Hms Hpf Hpv Hp.
  destruct (evaluate_primitive_value fuel h self o d ps p Ho Hd Hps Hms Hpf Hpv)
    as (oc & h' & He & Hc & _ & Hoc & Hpv').
  split_and!.
  - exists (length (objs h)), oc, h'. split_and!; try done.
    + apply lookup_lt_Some in Ho. lia.
    + by apply lookup_ge_None.
  - unfold __str__. rewrite Ho. simpl. by rewrite Hpv.
  - destruct p as [z|b|s]; simpl in Hp.
    + left. apply negb_false_iff, Z.eqb_eq in Hp as ->.
      split; [done|]. vm_compute. reflexivity.
    + right; left. by subst.
    + right; right. apply negb_false_iff, String.eqb_eq in Hp as ->. done.
Qed.


(** C4, as the code has it.  When the lookup finds nothing, [send_message]
    raises the message-not-found error for the requested name and leaves the
    store as it is.  When the lookup finds an instance, the outcome of
    [send_message] is the outcome of [evaluate] on that instance, result or
    error alike; so a message-not-found error for the requested name comes
    from a failed lookup or out of that evaluation.  The stored instance is
    not handed back unevaluated: for one that carries a payload the result
    is a copy. *)
Theorem send_message_spec fuel h self message :
  (_bfs_lookup h self message = NotFound →
     send_message prim fuel self message h = Raise (MessageNotFound message) h) ∧
  (∀ target, _bfs_lookup h self message = Found target →
     send_message prim fuel self message h = evaluate prim fuel target h) ∧
  (∀ h', send_message prim fuel self message h = Raise (MessageNotFound message) h' →
     _bfs_lookup h self message = NotFound ∨
     ∃ target, _bfs_lookup h self message = Found target ∧
       evaluate prim fuel target h = Raise (MessageNotFound message) h') ∧
  (∀ target o d ps p fuel',
     _bfs_lookup h self message = Found target → fuel = S fuel' →
     objs h !! target = Some o → dicts h !! slots o = Some d →
     plists h !! parent_slots o = Some ps → mlists h !! messages o = Some [] →
     primitive_function o = None → primitive_value o = Some p →
     ∃ c h', send_message prim fuel self message h = Ok (VObj c) h' ∧ c ≠ target).
Proof.
  unfold send_message, send_message_with. split_and!.
  - by intros ->.
  - by intros target ->.
  - intros h'. destruct (_bfs_lookup h self message) as [target| | |]; try done; eauto.
  - intros target o d ps p fuel' -> -> Ho Hd Hps Hms Hpf Hpv.
    destruct (evaluate_primitive_value fuel' h target o d ps p Ho Hd Hps Hms Hpf Hpv)
      as (oc & h' & -> & _). eexists _, _. split; [done|].
    apply lookup_lt_Some in Ho. lia.
Qed.

Lemma copy_then_assign h target o d ps ms name x :
  objs h !! target = Some o → dicts h !! slots o = Some d →
  plists h !! parent_slots o = Some ps → mlists h !! messages o = Some ms →
  ∃ c oc h1 h2,
    copy target h = Ok c h1 ∧ assign_slot c name x h1 = Ok () h2 ∧
    objs h !! c = None ∧ objs h2 !! c = Some oc ∧
    dicts h2 !! slots oc = Some (dict_set d name x) ∧
    plists h2 !! parent_slots oc = Some ps ∧ mlists h2 !! messages oc = Some ms ∧
    primitive_value oc = primitive_value o ∧
    primitive_function oc = primitive_function o ∧
    objs h2 !! target = Some o ∧ dicts h2 !! slots o = Some d.
Proof.
  intros Ho Hd Hps Hms.
  destruct (copy_spec h target o d ps ms Ho Hd Hps Hms)
    as (oc & h1 & Hc & Hext & Hobjs & Hd0 & Hd1 & Hp0 & Hp1 & Hm0 & Hm1 & Hpv & Hpf).
  destruct (extends_lookup h h1 Hext) as (Eo & Ed & _ & _).
  assert (objs h1 !! length (objs h) = Some oc) as Hoc
    by (rewrite Hobjs; apply lookup_snoc_new).
  destruct (assign_slot_spec h1 _ name x oc d Hoc Hd1)
    as (h2 & Ha & Eobjs & Epl & Eml & Hs & Hoth).
  exists (length (objs h)), oc, h1, h2. rewrite Eobjs, Epl, Eml.
  split_and!; auto.
  - by apply lookup_ge_None.
  - rewrite Hoth; [auto|congruence].
Qed.

(** C5, as the code has it.  When the lookup finds nothing,
    [send_message_with_parameters] raises the same error as [send_message].
    When it finds an instance, it copies that instance, assigns the
    argument to the slot ["parameter"] of the copy, and its outcome is that
    of [evaluate] on the copy; the slots of the found instance stay as they
    were.  When the found instance has no messages and its function is
    [echo], the call hands back the argument instance itself, not
    evaluated. *)
Theorem send_message_with_parameters_spec fuel h self message parameter :
  (_bfs_lookup h self message = NotFound →
     send_message_with_parameters prim fuel self message parameter h
       = Raise (MessageNotFound message) h ∧
     send_message prim fuel self message h = Raise (MessageNotFound message) h) ∧
  (∀ target o d ps ms,
     _bfs_lookup h self message = Found target →
     objs h !! target = Some o → dicts h !! slots o = Some d →
     plists h !! parent_slots o = Some ps → mlists h !! messages o = Some ms →
     ∃ c h1 h2,
       copy target h = Ok c h1 ∧
       assign_slot c "parameter" parameter h1 = Ok () h2 ∧
       send_message_with_parameters prim fuel self message parameter h
         = evaluate prim fuel c h2 ∧
       c ≠ target ∧
       slots_of h2 c = Some (dict_set d "parameter" parameter) ∧
       slot_of h2 c "parameter" = Some parameter ∧
       slots_of h2 target = Some d) ∧
  (∀ target o d ps f fuel',
     _bfs_lookup h self message = Found target → fuel = S fuel' →
     objs h !! target = Some o → dicts h !! slots o = Some d →
     plists h !! parent_slots o = Some ps → mlists h !! messages o = Some [] →
     primitive_function o = Some f → prim f = echo →
     ∃ h', send_message_with_parameters prim fuel self message parameter h
             = Ok (VObj parameter) h').
Proof.
  unfold send_message_with_parameters, send_message, send_message_with. split_and!.
  - by intros ->.
  - intros target o d ps ms -> Ho Hd Hps Hms.
    destruct (copy_then_assign h target o d ps ms "parameter" parameter Ho Hd Hps Hms)
      as (c & oc & h1 & h2 & Hc & Ha & Hnew & Hoc & Hdc & _ & _ & _ & _ & Ho2 & Hd2).
    exists c, h1, h2. unfold bind. rewrite Hc, Ha.
    unfold slot_of, slots_of. rewrite Hoc, Ho2. simpl. rewrite Hdc, Hd2. simpl.
    split_and!; try done; [congruence|apply dict_get_set].
  - intros target o d ps f fuel' -> -> Ho Hd Hps Hms Hpf Hecho.
    destruct (copy_then_assign h target o d ps [] "parameter" parameter Ho Hd Hps Hms)
      as (c & oc & h1 & h2 & Hc & Ha & _ & Hoc & Hdc & Hpc & Hmc & _ & Hpfc & _).
    unfold bind. rewrite Hc, Ha.
    rewrite (evaluate_unfold fuel' h2 c oc [] Hoc Hmc), Hpfc, Hpf.
    destruct (copy_spec h2 c oc _ ps [] Hoc Hdc Hpc Hmc)
      as (oc2 & h3 & Hc2 & _ & Hobjs & _ & Hd3 & _).
    unfold bind. rewrite Hc2, Hecho. unfold echo.
    rewrite Hobjs, lookup_snoc_new, Hd3, dict_get_set. eauto.
Qed.
End Evaluation.

(** ** The properties on the scenarios *)



Lemma bfs_lookup_breadth_first_witness :
  bfs_order 9 tie_break_heap [0] ∅ = [0; 1; 2; 3] ∧
  _bfs_lookup tie_break_heap 0 "k"
    = first_holder tie_break_heap "k" (bfs_order 9 tie_break_heap [0] ∅) ∧
  _bfs_lookup tie_break_heap 0 "k" = level_search 9 tie_break_heap "k" [0] ∅ ∧
  _bfs_lookup shadow_heap 0 "k" = Found 2 ∧
  _bfs_lookup tie_break_heap 0 "k" = Found 4 ∧
  send_message echo_host 1 0 "k" tie_break_heap = evaluate echo_host 1 4 tie_break_heap.
Proof.
  destruct (bfs_lookup_breadth_first echo_host tie_break_heap "k")
    as (H0 & H1 & _ & H3).
  destruct (bfs_lookup_breadth_first echo_host shadow_heap "k") as (_ & _ & H2 & _).
  destruct (H3 0 1 2 3 _ _ _ _ _ _ _ _ _ 4 5 1
              eq_refl eq_refl eq_refl eq_refl eq_refl eq_refl eq_refl eq_refl
              (list_elem_of_here _ _) eq_refl eq_refl eq_refl
              eq_refl eq_refl eq_refl) as [Hfound Hsend].
  split_and!; [by vm_compute| | |by eapply (H2 0)|done|done].
  - apply H0; [reflexivity|simpl; lia|vm_compute; lia].
  - apply H1. vm_compute. lia.
Defined.

Lemma bfs_lookup_terminates_witness :
  _bfs_lookup mutual_heap 0 "missing" ≠ Exhausted ∧
  bfs_loop 4 mutual_heap "missing" [0] ∅ ≠ Exhausted ∧
  bfs_loop 7 mutual_heap "missing" [0] ∅ = _bfs_lookup mutual_heap 0 "missing" ∧
  _bfs_lookup mutual_heap 0 "missing" = NotFound ∧
  send_message echo_host 0 0 "missing" mutual_heap
    = Raise (MessageNotFound "missing") mutual_heap.
Proof.
  destruct (bfs_lookup_terminates echo_host mutual_heap "missing")
    as (H1 & H2 & H3 & H4).
  destruct (H4 0 1 _ _ _ _ 0 eq_refl eq_refl eq_refl eq_refl eq_refl eq_refl
              eq_refl eq_refl) as [Hnone Hsend].
  split_and!; [apply H1| | |done|done].
  - apply H2. vm_compute. lia.
  - apply H3. vm_compute. lia.
Defined.

Lemma send_message_spec_witness :
  send_message echo_host 3 0 "missing" mutual_heap
    = Raise (MessageNotFound "missing") mutual_heap ∧
  send_message echo_host 3 0 "k" shadow_heap = evaluate echo_host 3 2 shadow_heap ∧
  (∃ target, _bfs_lookup nested_failure_heap 0 "k" = Found target ∧
     ∃ h', evaluate echo_host 3 target nested_failure_heap
             = Raise (MessageNotFound "k") h') ∧
  (∃ c h', send_message echo_host 3 0 "k" shadow_heap = Ok (VObj c) h' ∧ c ≠ 2).
Proof.
  destruct (send_message_spec echo_host 3 mutual_heap 0 "missing") as (H1 & _).
  destruct (send_message_spec echo_host 3 shadow_heap 0 "k") as (_ & H2 & _ & H4).
  destruct (send_message_spec echo_host 3 nested_failure_heap 0 "k") as (_ & _ & H3 & _).
  split_and!.
  - apply H1. by vm_compute.
  - apply H2. by vm_compute.
  - destruct (H3 _ eq_refl) as [Hl|(target & Hl & He)]; [by vm_compute in Hl|].
    exists target. split; [done|]. eauto.
  - eapply (H4 2); reflexivity.
Defined.

Lemma send_message_with_parameters_spec_witness :
  returned (send_message_with_parameters echo_host 3 0 "echo" 2 echo_heap)
    = Some (VObj 2) ∧
  __str__ echo_heap 2 = Some (inr "Hello") ∧
  (∃ c h1 h2, copy 1 echo_heap = Ok c h1 ∧
     assign_slot c "parameter" 2 h1 = Ok () h2 ∧
     slot_of h2 c "parameter" = Some 2 ∧ slot_of h2 1 "parameter" = None) ∧
  send_message_with_parameters echo_host 3 0 "missing" 2 echo_heap
    = Raise (MessageNotFound "missing") echo_heap.
Proof.
  destruct (send_message_with_parameters_spec echo_host 3 echo_heap 0 "echo" 2)
    as (_ & H2 & H3).
  destruct (send_message_with_parameters_spec echo_host 3 echo_heap 0 "missing" 2)
    as (H1 & _).
  split_and!.
  - destruct (H3 1 _ _ _ 0 2 ltac:(by vm_compute) eq_refl eq_refl eq_refl eq_refl
                eq_refl eq_refl eq_refl) as [h' ->]. done.
  - done.
  - destruct (H2 1 _ _ _ _ ltac:(by vm_compute) eq_refl eq_refl eq_refl eq_refl)
      as (c & h1 & h2 & Hc & Ha & _ & _ & Hs & Hp & Ht).
    exists c, h1, h2. split_and!; try done.
    unfold slot_of. by rewrite Ht.
  - apply H1. by vm_compute.
Defined.

Lemma make_parent_spec_witness :
  make_parent 0 "absent" shadow_heap = Raise (SlotNotFound "absent") shadow_heap ∧
  ∃ h', make_parent 0 "k" shadow_heap = Ok () h' ∧
    parent_slots_of h' 0 = Some [1; 2] ∧ slot_of h' 0 "k" = Some 2.
Proof.
  destruct (make_parent_spec shadow_heap 0 "absent" _ _ _ eq_refl eq_refl eq_refl)
    as (_ & Hfail & _).
  destruct (make_parent_spec shadow_heap 0 "k" _ _ _ eq_refl eq_refl eq_refl)
    as (_ & _ & Hok).
  split; [by apply Hfail|].
  destruct (Hok 2 eq_refl) as (h' & Hm & _ & _ & _ & _ & Hp & Hs). by exists h'.
Defined.

Lemma copy_is_shallow_witness :
  ∃ c oc h', copy 0 falsy_heap = Ok c h' ∧
    objs falsy_heap !! c = None ∧ objs h' !! c = Some oc ∧
    slots oc ≠ 0 ∧ slot_of h' c "a" = Some 1 ∧
    primitive_value oc = Some (PInt 0) ∧
    ∃ h1, assign_slot c "b" 2 h' = Ok () h1 ∧
      slots_of h1 0 = Some [("a", 1)] ∧ slots_of h1 c = Some [("a", 1); ("b", 2)].
Proof.
  destruct (copy_is_shallow falsy_heap 0 _ _ _ _ eq_refl eq_refl eq_refl eq_refl)
    as (c & oc & h' & Hc & _ & _ & [Hnew Hoc] & (Hd0 & _) & _ & [Hpv _] & Hs & Ha & _).
  exists c, oc, h'.
  split_and!; [done|done|done| |by rewrite Hs|done|apply (Ha "b" 2)].
  intros E. by rewrite E in Hd0.
Defined.


Lemma init_keeps_references_witness :
  ∃ self o h', __init__ (Some 1) (Some 2) None None None passed_heap = Ok self h' ∧
    objs h' !! self = Some o ∧
    slots o = 1 ∧ dicts h' = dicts passed_heap ∧
    parent_slots o = 3 ∧ plists h' !! 3 = Some [] ∧
    messages o = 3 ∧ mlists h' !! 3 = Some [] ∧
    (∃ h2, dict_setitem 1 "b" 0 h' = Ok () h2 ∧
       slots_of h2 self = Some [("a", 0); ("b", 0)]) ∧
    (∃ h2, plist_append 2 0 h' = Ok () h2 ∧ parent_slots_of h2 self = Some []).
Proof.
  destruct (init_keeps_references passed_heap (Some 1) (Some 2) None None None)
    as (self & o & h' & Hi & _ & Ho & _ & _ & Ks & Kp & Km & Hd & Hp & _).
  - intros l [= <-]. by eexists.
  - intros l [= <-]. by eexists.
  - by intros l.
  - exists self, o, h'. destruct Ks as [-> ->], Kp as [-> ->], Km as [-> ->].
    split_and!; try done.
    + apply (Hd 1 _ "b" 0 eq_refl eq_refl).
    + apply (Hp 2 _ 0 eq_refl eq_refl).
Defined.

Lemma falsy_primitive_value_is_set_witness :
  (∃ c oc h', evaluate echo_host 1 0 falsy_heap = Ok (VObj c) h' ∧ c ≠ 0 ∧
     objs h' !! c = Some oc ∧ primitive_value oc = Some (PInt 0)) ∧
  __str__ falsy_heap 0 = Some (inr "0") ∧
  __str__ falsy_heap 1 = Some (inr "False") ∧
  __str__ falsy_heap 2 = Some (inr "").
Proof.
  destruct (falsy_primitive_value_is_set echo_host 0 falsy_heap 0 _ _ _ (PInt 0)
              eq_refl eq_refl eq_refl eq_refl eq_refl eq_refl eq_refl)
    as ((c & oc & h' & He & _ & Hne & _ & Hoc & Hpv) & H0 & _).
  destruct (falsy_primitive_value_is_set echo_host 0 falsy_heap 1 _ _ _ (PBool false)
              eq_refl eq_refl eq_refl eq_refl eq_refl eq_refl eq_refl)
    as (_ & H1 & _).
  destruct (falsy_primitive_value_is_set echo_host 0 falsy_heap 2 _ _ _ (PStr "")
              eq_refl eq_refl eq_refl eq_refl eq_refl eq_refl eq_refl)
    as (_ & H2 & _).
  split_and!; try done. by exists c, oc, h'.
Defined.

(** *** Where the specification says more than the code does *)


(** C4.  [R]'s lookup of ["k"] finds [O], and yet [send_message] raises the
    message-not-found error for ["k"]: it comes out of the evaluation of
    [O], which sends ["k"] to a copy of [O]. *)
Lemma send_message_nested_failure :
  _bfs_lookup nested_failure_heap 0 "k" = Found 1 ∧
  raised (send_message echo_host 3 0 "k" nested_failure_heap)
    = Some (MessageNotFound "k").
Proof. split; vm_compute; reflexivity. Qed.

(** C5.  With [echo] as the function, the call hands back the argument
    instance as it is, which is not what evaluating the argument gives:
    here the argument renders as an instance with a message, while its
    evaluation is a copy of the instance in its slot ["x"]. *)
Lemma echo_returns_unevaluated_parameter :
  returned (send_message_with_parameters echo_host 3 0 "echo" 2 echo_script_heap)
    = Some (VObj 2) ∧
  rendered (send_message_with_parameters echo_host 3 0 "echo" 2 echo_script_heap)
    = Some "<SelfObjectModel: messages=['x'], slots=['x']>" ∧
  returned (evaluate echo_host 3 2 echo_script_heap) = Some (VObj 5) ∧
  rendered (evaluate echo_host 3 2 echo_script_heap) = Some "7".
Proof. split_and!; vm_compute; reflexivity. Qed.


(** * Further properties of the code *)

(** ** Lookups and evaluation in a growing store *)

Lemma bfs_loop_extends h h' message :
  extends h h' → ∀ fuel queue visited,
  bfs_loop fuel h message queue visited ≠ Dangling →
  bfs_loop fuel h' message queue visited = bfs_loop fuel h message queue visited.
Proof.
  intros Hext. destruct (extends_lookup h h' Hext) as (Eo & Ed & Ep & _).
  induction fuel as [|fuel IH]; intros queue visited Hne; simpl in *; [done|].
  destruct queue as [|current queue]; [done|].
  destruct (decide (current ∈ visited)); [by apply IH|].
  destruct (objs h !! current) as [o|] eqn:Ho; [|done]. rewrite (Eo _ _ Ho).
  destruct (dicts h !! slots o) as [d|] eqn:Hd; [|done]. rewrite (Ed _ _ Hd).
  destruct (dict_get d message); [done|].
  destruct (plists h !! parent_slots o) as [ps|] eqn:Hps; [|done]. rewrite (Ep _ _ Hps).
  by apply IH.
Qed.

(** X1.  A lookup depends only on what it visits.  When instances and
    containers are added and everything that existed is left as it was, a
    lookup that met no missing reference gives the same answer afterwards,
    from every receiver and for every name. *)
Theorem bfs_lookup_extends h h' self message :
  extends h h' → _bfs_lookup h self message ≠ Dangling →
  _bfs_lookup h' self message = _bfs_lookup h self message.
Proof.
  intros Hext Hne. apply (bfs_lookup_intro h' message (bfs_fuel h)).
  - by apply bfs_loop_extends.
  - apply bfs_lookup_total.
Qed.

Lemma allocated_bind h {A B} (c : M A) (k : A → M B) :
  allocated h (c h) → (∀ a h', extends h h' → allocated h' (k a h')) →
  allocated h (bind c k h).
Proof.
  unfold bind. intros Hc Hk. destruct (c h) as [a h1|e h1| |]; simpl in *; try done.
  specialize (Hk a h1 Hc). destruct (k a h1); simpl in *; try done; by eapply extends_trans.
Qed.

Lemma copy_allocated self h : allocated h (copy self h).
Proof. by destruct (copy_inv self h) as [(h' & -> & He)| ->]. Qed.

Lemma for_messages_allocated send n l :
  (∀ m h, allocated h (send m h)) →
  ∀ i result h, allocated h (for_messages send n l i result h).
Proof.
  intros Hsend. induction n as [|n IH]; intros i result h; simpl; [done|].
  destruct (mlists h !! l) as [ms|]; [|done].
  destruct (ms !! i) as [m|]; [|apply extends_refl].
  pose proof (Hsend m h) as Hs. destruct (send m h) as [r h1|e h1| |]; simpl in *; try done.
  pose proof (IH (S i) r h1) as Hf.
  destruct (for_messages send n l (S i) r h1); simpl in *; try done; by eapply extends_trans.
Qed.

Section Allocation.
Context (prim : fid → addr → M value) (Hprim : only_allocates prim).

Lemma evaluate_allocated fuel : ∀ self h, allocated h (evaluate prim fuel self h).
Proof.
  induction fuel as [|fuel IH]; intros self h; simpl; [done|].
  destruct (objs h !! self) as [o|]; [|done].
  destruct (mlists h !! messages o) as [[|m ms]|]; [| |done].
  - destruct (primitive_function o) as [f|].
    + apply allocated_bind; [apply copy_allocated|]. intros c h' _. apply Hprim.
    + destruct (primitive_value o); [|apply extends_refl].
      apply allocated_bind; [apply copy_allocated|]. intros c h' _. apply extends_refl.
  - apply allocated_bind; [apply copy_allocated|]. intros c h' _.
    apply for_messages_allocated. intros m0 h0. unfold send_message_with.
    destruct (_bfs_lookup h0 c m0); first [apply IH|apply extends_refl|done].
Qed.

Lemma copy_fresh_slots self h c h1 :
  copy self h = Ok c h1 →
  ∃ oc, objs h1 !! c = Some oc ∧ length (dicts h) ≤ slots oc ∧ extends h h1.
Proof.
  intros Hc. destruct (objs h !! self) as [o|] eqn:Ho; [|unfold copy in Hc; by rewrite Ho in Hc].
  rewrite (copy_unfold h self o Ho) in Hc.
  destruct (dup (dicts h) (slots o)) as [[s ds]|] eqn:Hd; [|done].
  destruct (dup (plists h) (parent_slots o)) as [[p ps]|] eqn:Hp; [|done].
  destruct (dup (mlists h) (messages o)) as [[m ms]|] eqn:Hm; [|done].
  injection Hc as <- <-. eexists. simpl. split; [apply lookup_snoc_new|]. simpl.
  split.
  - unfold dup, copy_container in Hd. destruct (dicts h !! slots o) as [c|] eqn:Hl; [|done].
    destruct (dup_spec (dicts h) (slots o) c Hl) as (l1 & st1 & E & _ & Hnone & _).
    unfold dup, copy_container in E. rewrite Hl in E. simpl in *.
    assert (l1 = s) as -> by congruence. by apply lookup_ge_None.
  - repeat split; simpl; [by apply prefix_app_r|by eapply dup_prefix..].
Qed.

(** X2.  [evaluate], [send_message] and [send_message_with_parameters] work
    on copies.  Provided the host callables change no instance or container
    that exists when they are called, neither does any of the three,
    whether it returns or raises: what existed before the call is the same
    after it, and the ["parameter"] slot is written into a dict that the
    call itself created. *)
Theorem engine_only_allocates fuel self message parameter h :
  allocated h (evaluate prim fuel self h) ∧
  allocated h (send_message prim fuel self message h) ∧
  allocated h (send_message_with_parameters prim fuel self message parameter h).
Proof.
  split_and!.
  - apply evaluate_allocated.
  - unfold send_message, send_message_with.
    destruct (_bfs_lookup h self message);
      first [apply evaluate_allocated|apply extends_refl|done].
  - unfold send_message_with_parameters.
    destruct (_bfs_lookup h self message) as [t| | |];
      [|apply extends_refl|done..].
    unfold bind. pose proof (copy_allocated t h) as Hca.
    destruct (copy t h) as [c h1| | |] eqn:Hc; try done.
    destruct (copy_fresh_slots t h c h1 Hc) as (oc & Hoc & Hfresh & Hext).
    unfold assign_slot. rewrite Hoc.
    destruct (dicts h1 !! slots oc) as [d|]; [|done].
    set (h2 := set_dicts h1 (<[slots oc := dict_set d "parameter" parameter]> (dicts h1))).
    assert (extends h h2) as Hext2.
    { destruct Hext as (Ho & Hd & Hp & Hm). repeat split; simpl; try done.
      destruct Hd as [k ->]. rewrite insert_app_r_alt by done. by apply prefix_app_r. }
    pose proof (evaluate_allocated fuel c h2) as He.
    destruct (evaluate prim fuel c h2); simpl in *; try done; by eapply extends_trans.
Qed.
End Allocation.

(** ** Slots and parents *)

Lemma dict_get_set_ne d k k' v : k ≠ k' → dict_get (dict_set d k v) k' = dict_get d k'.
Proof.
  intros Hne. induction d as [|[k0 v0] d IH]; simpl.
  - by rewrite decide_False.
  - destruct (decide (k0 = k)) as [->|Hne0]; simpl.
    + by rewrite !decide_False.
    + by rewrite IH.
Qed.

Lemma dict_keys_set d k v :
  dict_keys (dict_set d k v) = if decide (k ∈ dict_keys d) then dict_keys d else dict_keys d ++ [k].
Proof.
  unfold dict_keys. induction d as [|[k0 v0] d IH].
  - destruct (decide (k ∈ [].*1)) as [Hin|_]; [by apply elem_of_nil in Hin|done].
  - cbn [dict_set]. destruct (decide (k0 = k)) as [->|Hne0].
    + rewrite decide_True; [done|]. apply list_elem_of_here.
    + rewrite !fmap_cons, IH. simpl. destruct (decide (k ∈ d.*1)) as [Hin|Hnin].
      * rewrite decide_True; [done|]. by apply list_elem_of_further.
      * rewrite decide_False; [done|].
        intros [?|?]%elem_of_cons; congruence.
Qed.

Lemma dict_get_keys d k : is_Some (dict_get d k) ↔ k ∈ dict_keys d.
Proof.
  unfold dict_keys. induction d as [|[k0 v0] d IH]; simpl.
  - split; [by intros [? ?]|by intros ?%elem_of_nil].
  - destruct (decide (k0 = k)) as [->|Hne0].
    + split; [intros _; apply list_elem_of_here|eauto].
    + rewrite IH. split; [by apply list_elem_of_further|].
      intros [?|?]%elem_of_cons; [congruence|done].
Qed.

(** X3.  After [assign_slot name obj] the slot [name] of the receiver holds
    [obj], and a lookup of [name] from the receiver finds [obj] whatever its
    parents hold.  The receiver's other slots are as before, no instance,
    parent list or message list changes, an instance with another dict
    keeps its slots, and an instance that shares the receiver's dict sees
    the new slot too. *)
Theorem assign_slot_round_trip h self name obj o d :
  objs h !! self = Some o → dicts h !! slots o = Some d →
  ∃ h', assign_slot self name obj h = Ok () h' ∧
    slot_of h' self name = Some obj ∧
    _bfs_lookup h' self name = Found obj ∧
    (∀ name', name' ≠ name → slot_of h' self name' = slot_of h self name') ∧
    objs h' = objs h ∧ plists h' = plists h ∧ mlists h' = mlists h ∧
    (∀ b ob, objs h !! b = Some ob → slots ob ≠ slots o →
       slots_of h' b = slots_of h b) ∧
    (∀ b ob, objs h !! b = Some ob → slots ob = slots o →
       slot_of h' b name = Some obj).
Proof.
  intros Ho Hd.
  destruct (assign_slot_spec h self name obj o d Ho Hd)
    as (h' & Ha & Eo & Ep & Em & Hs & Hoth).
  exists h'. split_and!; try done.
  - unfold slot_of, slots_of. rewrite Eo, Ho. simpl. rewrite Hs. simpl. apply dict_get_set.
  - eapply bfs_lookup_direct; [by rewrite Eo|done|apply dict_get_set].
  - intros name' Hne. unfold slot_of, slots_of. rewrite Eo, Ho. simpl. rewrite Hs, Hd. simpl.
    by apply dict_get_set_ne.
  - intros b ob Hb Hne. unfold slots_of. rewrite Eo, Hb. simpl. by apply Hoth.
  - intros b ob Hb Heq. unfold slot_of, slots_of. rewrite Eo, Hb. simpl.
    rewrite Heq, Hs. simpl. apply dict_get_set.
Qed.

(** X4.  Assigning the same name twice keeps the later value, and the keys
    of the dict are those after the first assignment, in the same order: a
    name that was there keeps its place, a new one goes last. *)
Theorem assign_slot_overwrites h self name obj1 obj2 o d :
  objs h !! self = Some o → dicts h !! slots o = Some d →
  ∃ h1 h2, assign_slot self name obj1 h = Ok () h1 ∧
    assign_slot self name obj2 h1 = Ok () h2 ∧
    slot_of h2 self name = Some obj2 ∧
    keys_of h2 self = keys_of h1 self ∧
    keys_of h1 self =
      Some (if decide (name ∈ dict_keys d) then dict_keys d else dict_keys d ++ [name]).
Proof.
  intros Ho Hd.
  destruct (assign_slot_spec h self name obj1 o d Ho Hd)
    as (h1 & Ha & Eo & _ & _ & Hs & _).
  assert (objs h1 !! self = Some o) as Ho1 by by rewrite Eo.
  destruct (assign_slot_spec h1 self name obj2 o _ Ho1 Hs)
    as (h2 & Ha2 & Eo2 & _ & _ & Hs2 & _).
  exists h1, h2. unfold slot_of, keys_of, slots_of.
  rewrite Eo2, Ho1. simpl. rewrite Hs2, Hs. simpl.
  split_and!; try done.
  - apply dict_get_set.
  - f_equal. rewrite (dict_keys_set (dict_set d name obj1)).
    rewrite decide_True; [done|]. apply dict_get_keys. rewrite dict_get_set. eauto.
  - f_equal. apply dict_keys_set.
Qed.

Lemma assign_parent_slot_ok h self name obj o d ps :
  objs h !! self = Some o → dicts h !! slots o = Some d →
  plists h !! parent_slots o = Some ps →
  assign_parent_slot self name obj h
    = Ok () (Heap (objs h) (<[slots o := dict_set d name obj]> (dicts h))
                  (<[parent_slots o := ps ++ [obj]]> (plists h)) (mlists h)).
Proof.
  intros Ho Hd Hps. unfold assign_parent_slot, bind, assign_slot. rewrite Ho, Hd.
  unfold make_parent. simpl. rewrite Ho.
  rewrite list_lookup_insert_eq by (by eapply lookup_lt_Some).
  by rewrite dict_get_set, Hps.
Qed.

(** X5.  [assign_parent_slot name obj] succeeds on every receiver: the
    [make_parent] it ends with cannot miss the slot that its [assign_slot]
    has just written.  Afterwards the slot [name] holds [obj] and [obj] is
    the last entry of the parent list; the receiver's dict and parent list
    are the only things that change. *)
Theorem assign_parent_slot_spec h self name obj o d ps :
  objs h !! self = Some o → dicts h !! slots o = Some d →
  plists h !! parent_slots o = Some ps →
  ∃ h', assign_parent_slot self name obj h = Ok () h' ∧
    slot_of h' self name = Some obj ∧
    parent_slots_of h' self = Some (ps ++ [obj]) ∧
    objs h' = objs h ∧ mlists h' = mlists h ∧
    dicts h' = <[slots o := dict_set d name obj]> (dicts h) ∧
    plists h' = <[parent_slots o := ps ++ [obj]]> (plists h).
Proof.
  intros Ho Hd Hps. rewrite (assign_parent_slot_ok h self name obj o d ps Ho Hd Hps).
  eexists. split; [done|].
  unfold slot_of, parent_slots_of, slots_of. simpl. rewrite Ho. simpl.
  rewrite !list_lookup_insert_eq by (by eapply lookup_lt_Some). simpl.
  by rewrite dict_get_set.
Qed.

Lemma make_parent_ok h self name o d ps v :
  objs h !! self = Some o → dicts h !! slots o = Some d →
  plists h !! parent_slots o = Some ps → dict_get d name = Some v →
  make_parent self name h
    = Ok () (set_plists h (<[parent_slots o := ps ++ [v]]> (plists h))).
Proof. intros Ho Hd Hps Hg. unfold make_parent. by rewrite Ho, Hd, Hg, Hps. Qed.

(** X6.  Inheritance through [assign_parent_slot].  When a receiver with
    no parents and no slot [message] is given the parent [obj] under
    another name, and [obj] holds [message], a lookup of [message] from the
    receiver finds what [obj] holds, and [send_message] is the evaluation
    of it. *)
Theorem assign_parent_slot_inherits (prim : fid → addr → M value)
    h self name obj o d oo do message target fuel :
  objs h !! self = Some o → dicts h !! slots o = Some d →
  plists h !! parent_slots o = Some [] →
  objs h !! obj = Some oo → dicts h !! slots oo = Some do →
  message ≠ name → dict_get d message = None → dict_get do message = Some target →
  ∃ h', assign_parent_slot self name obj h = Ok () h' ∧
    _bfs_lookup h' self message = Found target ∧
    send_message prim fuel self message h' = evaluate prim fuel target h'.
Proof.
  intros Ho Hd Hps Hoo Hdo Hne Hg Hgo.
  pose proof (assign_parent_slot_ok h self name obj o d [] Ho Hd Hps) as Ha.
  set (h' := Heap _ _ _ _) in Ha.
  assert (objs h' = objs h) as Eo by done.
  assert (dicts h' = <[slots o := dict_set d name obj]> (dicts h)) as Ed by done.
  assert (plists h' = <[parent_slots o := [] ++ [obj]]> (plists h)) as Ep by done.
  clearbody h'.
  assert (slots oo ≠ slots o) as Hsl by (intros E; rewrite E in Hdo; congruence).
  assert (obj ≠ self) as Hobj by (intros ->; congruence).
  assert (_bfs_lookup h' self message = Found target) as Hl.
  { apply (bfs_lookup_intro h' message 2); [|done].
    erewrite bfs_loop_pass with (ps := [obj]) (d := dict_set d name obj);
      [|apply not_elem_of_empty|by rewrite Eo| | |].
    - rewrite app_nil_l, filter_cons, filter_nil.
      rewrite decide_True.
      + eapply bfs_loop_hit with (d := do); [|by rewrite Eo| |done].
        * intros [?%elem_of_singleton|?%elem_of_empty]%elem_of_union; done.
        * rewrite Ed. by rewrite list_lookup_insert_ne.
      + intros [?%elem_of_singleton|?%elem_of_empty]%elem_of_union; done.
    - rewrite Ed. apply list_lookup_insert_eq. by eapply lookup_lt_Some.
    - by rewrite dict_get_set_ne.
    - rewrite Ep. apply list_lookup_insert_eq. by eapply lookup_lt_Some. }
  exists h'. split_and!; [done..|].
  unfold send_message, send_message_with. by rewrite Hl.
Qed.

(** X7.  [make_parent] does not look whether the instance is a parent
    already: a second call for the same slot appends the same instance a
    second time.  The slots are untouched. *)
Theorem make_parent_twice h self name o d ps v :
  objs h !! self = Some o → dicts h !! slots o = Some d →
  plists h !! parent_slots o = Some ps → dict_get d name = Some v →
  ∃ h1 h2, make_parent self name h = Ok () h1 ∧ make_parent self name h1 = Ok () h2 ∧
    parent_slots_of h1 self = Some (ps ++ [v]) ∧
    parent_slots_of h2 self = Some (ps ++ [v; v]) ∧
    slots_of h2 self = Some d.
Proof.
  intros Ho Hd Hps Hg.
  rewrite (make_parent_ok h self name o d ps v Ho Hd Hps Hg).
  set (h1 := set_plists h (<[parent_slots o := ps ++ [v]]> (plists h))).
  assert (plists h1 !! parent_slots o = Some (ps ++ [v])) as Hps1
    by (apply list_lookup_insert_eq; by eapply lookup_lt_Some).
  exists h1. rewrite (make_parent_ok h1 self name o d (ps ++ [v]) v Ho Hd Hps1 Hg).
  eexists. split_and!; try done.
  - unfold parent_slots_of. simpl. rewrite Ho. done.
  - unfold parent_slots_of. simpl. rewrite Ho. simpl.
    rewrite list_lookup_insert_eq by (rewrite length_insert; by eapply lookup_lt_Some).
    by rewrite <- (assoc_L (++)).
  - unfold slots_of. simpl. by rewrite Ho.
Qed.

(** X8.  [make_parent] records the instance that the slot holds when it is
    called, not the slot: assigning another instance to the slot afterwards
    changes the slot and leaves the parent list as it was. *)
Theorem make_parent_keeps_promoted h self name obj' o d ps v :
  objs h !! self = Some o → dicts h !! slots o = Some d →
  plists h !! parent_slots o = Some ps → dict_get d name = Some v →
  ∃ h1 h2, make_parent self name h = Ok () h1 ∧
    assign_slot self name obj' h1 = Ok () h2 ∧
    slot_of h2 self name = Some obj' ∧
    parent_slots_of h2 self = Some (ps ++ [v]).
Proof.
  intros Ho Hd Hps Hg.
  rewrite (make_parent_ok h self name o d ps v Ho Hd Hps Hg).
  set (h1 := set_plists h (<[parent_slots o := ps ++ [v]]> (plists h))).
  destruct (assign_slot_spec h1 self name obj' o d Ho Hd)
    as (h2 & Ha & Eo & Ep & _ & Hs & _).
  exists h1, h2. unfold slot_of, slots_of, parent_slots_of. rewrite Eo, Ep. simpl.
  rewrite Ho. simpl. rewrite Hs. simpl.
  split_and!; try done; [apply dict_get_set|].
  apply list_lookup_insert_eq. by eapply lookup_lt_Some.
Qed.

(** X9.  The parent list of a copy starts as that of the original and is a
    list of its own: a [make_parent] on the copy extends the copy's list
    only, and a [make_parent] on the original extends the original's list
    only. *)
Theorem copy_parent_lists_independent h self name o d ps ms v :
  objs h !! self = Some o → dicts h !! slots o = Some d →
  plists h !! parent_slots o = Some ps → mlists h !! messages o = Some ms →
  dict_get d name = Some v →
  ∃ c h',
    copy self h = Ok c h' ∧
    parent_slots_of h' c = Some ps ∧
    (∃ h1, make_parent c name h' = Ok () h1 ∧
       parent_slots_of h1 c = Some (ps ++ [v]) ∧ parent_slots_of h1 self = Some ps) ∧
    (∃ h1, make_parent self name h' = Ok () h1 ∧
       parent_slots_of h1 self = Some (ps ++ [v]) ∧ parent_slots_of h1 c = Some ps).
Proof.
  intros Ho Hd Hps Hms Hg.
  destruct (copy_spec h self o d ps ms Ho Hd Hps Hms)
    as (oc & h' & Hc & Hext & Hobjs & Hd0 & Hd1 & Hp0 & Hp1 & _).
  destruct (extends_lookup h h' Hext) as (Eo & Ed & Ep & _).
  assert (objs h' !! length (objs h) = Some oc) as Hoc
    by (rewrite Hobjs; apply lookup_snoc_new).
  assert (parent_slots oc ≠ parent_slots o) as Hne by congruence.
  exists (length (objs h)), h'. split_and!; [done| | |].
  - unfold parent_slots_of. by rewrite Hoc.
  - rewrite (make_parent_ok h' _ name oc d ps v Hoc Hd1 Hp1 Hg). eexists. split; [done|].
    unfold parent_slots_of. simpl. rewrite Hoc, (Eo _ _ Ho). simpl.
    rewrite list_lookup_insert_eq by (by eapply lookup_lt_Some).
    rewrite list_lookup_insert_ne by done. auto.
  - rewrite (make_parent_ok h' self name o d ps v (Eo _ _ Ho) (Ed _ _ Hd) (Ep _ _ Hps) Hg).
    eexists. split; [done|].
    unfold parent_slots_of. simpl. rewrite Hoc, (Eo _ _ Ho). simpl.
    rewrite list_lookup_insert_eq by (eapply lookup_lt_Some; by apply Ep).
    rewrite list_lookup_insert_ne by done. auto.
Qed.

(** ** Construction *)

Lemma init_default h pv pf :
  __init__ None None None pv pf h
    = Ok (length (objs h))
         (Heap (objs h ++ [Object (length (dicts h)) (length (plists h))
                                  (length (mlists h)) pv pf])
               (dicts h ++ [[]]) (plists h ++ [[]]) (mlists h ++ [[]])).
Proof. reflexivity. Qed.

Lemma lookup_snoc_old {A} (l : list A) x y : (l ++ [x; y]) !! length l = Some x.
Proof. by rewrite lookup_app_r, Nat.sub_diag by lia. Qed.

Lemma lookup_snoc_snoc {A} (l : list A) x y : (l ++ [x; y]) !! S (length l) = Some y.
Proof.
  rewrite lookup_app_r by lia. by replace (S (length l) - length l) with 1 by lia.
Qed.

(** X10.  Two instances constructed without containers share none: every
    call of the constructor makes its own empty dict and lists, so the two
    are distinct instances with distinct containers, and an [assign_slot]
    on the first leaves the second without slots. *)
Theorem init_defaults_are_separate h pv pf pv' pf' :
  ∃ a b oa ob h1 h2,
    __init__ None None None pv pf h = Ok a h1 ∧
    __init__ None None None pv' pf' h1 = Ok b h2 ∧
    a ≠ b ∧ objs h2 !! a = Some oa ∧ objs h2 !! b = Some ob ∧
    slots oa ≠ slots ob ∧ parent_slots oa ≠ parent_slots ob ∧
    messages oa ≠ messages ob ∧
    slots_of h2 a = Some [] ∧ slots_of h2 b = Some [] ∧
    (∀ name x, ∃ h3, assign_slot a name x h2 = Ok () h3 ∧
       slots_of h3 a = Some [(name, x)] ∧ slots_of h3 b = Some []).
Proof.
  rewrite init_default. eexists _, _, _, _, _, _. split; [done|].
  rewrite init_default. split; [done|]. simpl. rewrite !length_app. simpl.
  rewrite <- !(assoc_L (++)). rewrite !Nat.add_1_r.
  unfold slots_of, assign_slot. simpl.
  rewrite !lookup_snoc_old, !lookup_snoc_snoc. simpl.
  rewrite !lookup_snoc_old, !lookup_snoc_snoc. simpl.
  split_and!; try done; try lia.
  intros name x. eexists. split; [done|]. simpl.
  rewrite !lookup_snoc_old, !lookup_snoc_snoc. simpl.
  rewrite insert_app_r_alt, Nat.sub_diag by lia. simpl.
  by rewrite (lookup_snoc_old _ [(name, x)]), lookup_snoc_snoc.
Qed.

Lemma init_passed_slots h l d pv pf :
  dicts h !! l = Some d → d ≠ [] →
  __init__ (Some l) None None pv pf h
    = Ok (length (objs h))
         (Heap (objs h ++ [Object l (length (plists h)) (length (mlists h)) pv pf])
               (dicts h) (plists h ++ [[]]) (mlists h ++ [[]])).
Proof. intros Hl Hd. unfold __init__, or_empty. rewrite Hl. by destruct d. Qed.

(** X11.  Two instances constructed on the same non-empty dict share it:
    they are distinct instances with the same slots, and after an
    [assign_slot] on the first the second has the new slot as well. *)
Theorem init_shares_passed_slots h l d pv pf pv' pf' name x :
  dicts h !! l = Some d → d ≠ [] →
  ∃ a b h1 h2,
    __init__ (Some l) None None pv pf h = Ok a h1 ∧
    __init__ (Some l) None None pv' pf' h1 = Ok b h2 ∧
    a ≠ b ∧
    slots_of h2 a = Some d ∧ slots_of h2 b = Some d ∧
    ∃ h3, assign_slot a name x h2 = Ok () h3 ∧
      slot_of h3 a name = Some x ∧ slot_of h3 b name = Some x.
Proof.
  intros Hl Hd. rewrite (init_passed_slots h l d pv pf Hl Hd).
  eexists _, _, _, _. split; [done|].
  rewrite (init_passed_slots _ l d pv' pf'); [|done..]. split; [done|].
  cbn [objs dicts plists mlists]. rewrite !length_app. cbn [length].
  rewrite <- !(assoc_L (++)), !Nat.add_1_r.
  unfold slot_of, slots_of, assign_slot. cbn [objs dicts plists mlists app].
  rewrite !lookup_snoc_old, !lookup_snoc_snoc. cbn [mbind option_bind slots].
  rewrite Hl. split_and!; try done; try lia.
  eexists. split; [done|]. cbn [objs dicts set_dicts].
  rewrite !lookup_snoc_old, !lookup_snoc_snoc. cbn [mbind option_bind slots].
  rewrite list_lookup_insert_eq by (by eapply lookup_lt_Some). cbn [mbind option_bind].
  by rewrite dict_get_set.
Qed.

(** X12.  The copy of an instance prints as the instance does, the same
    text or the same error, and copying does not change how the instance
    prints.  For an instance with a payload [print] is [str] of the
    payload; without one it returns a text.  So the only error of [print]
    is the one [str] raises for an integer payload of more than 4300
    digits. *)
Theorem copy_renders_alike h self o d ps ms :
  objs h !! self = Some o → dicts h !! slots o = Some d →
  plists h !! parent_slots o = Some ps → mlists h !! messages o = Some ms →
  ∃ c h', copy self h = Ok c h' ∧
    print h' c = print h self ∧ print h' self = print h self ∧
    (∀ p, primitive_value o = Some p → print h self = Some (py_str p)) ∧
    (primitive_value o = None → ∃ text, print h self = Some (inr text)) ∧
    (∀ e, print h self = Some (inl e) →
       e = IntTooLong ∧
       ∃ z, primitive_value o = Some (PInt z) ∧
            (10 ^ int_max_str_digits ≤ Z.abs z)%Z).
Proof.
  intros Ho Hd Hps Hms.
  destruct (copy_spec h self o d ps ms Ho Hd Hps Hms)
    as (oc & h' & Hc & Hext & Hobjs & _ & Hd1 & _ & _ & _ & Hm1 & Hpv & Hpf).
  destruct (extends_lookup h h' Hext) as (Eo & Ed & _ & Em).
  assert (objs h' !! length (objs h) = Some oc) as Hoc
    by (rewrite Hobjs; apply lookup_snoc_new).
  exists (length (objs h)), h'. unfold print, __str__.
  rewrite Hoc, (Eo _ _ Ho), Ho. simpl.
  rewrite Hpv, Hpf, Hd1, Hm1, (Ed _ _ Hd), (Em _ _ Hms), Hd, Hms. simpl.
  split_and!; try done.
  - by intros p ->.
  - intros ->. destruct (primitive_function o); [by eexists|]. destruct ms; by eexists.
  - destruct (primitive_value o) as [p|].
    + intros e [= He]. destruct (py_str_inl p e He) as (-> & z & -> & Hz). eauto.
    + destruct (primitive_function o); [done|]. by destruct ms.
Qed.

(** ** Scripts *)

Section Scripts.
Context (prim : fid → addr → M value).

(** X13.  An instance with the single message [m] whose own slot [m] holds
    an instance with nothing but a payload evaluates to an instance on
    which [str] gives what [str] of that payload gives, and so does
    [send_message m] to it; when [str] of the payload returns a text, that
    text is what printing the result shows.  The instance returned did not
    exist before the call, and nothing that existed has changed. *)
Theorem evaluate_script_renders_payload fuel h self o d ps m target ot dt pst p :
  objs h !! self = Some o → dicts h !! slots o = Some d →
  plists h !! parent_slots o = Some ps → mlists h !! messages o = Some [m] →
  dict_get d m = Some target →
  objs h !! target = Some ot → dicts h !! slots ot = Some dt →
  plists h !! parent_slots ot = Some pst → mlists h !! messages ot = Some [] →
  primitive_function ot = None → primitive_value ot = Some p →
  (∃ c h', evaluate prim (S (S (S fuel))) self h = Ok (VObj c) h' ∧
     objs h !! c = None ∧ extends h h' ∧ __str__ h' c = Some (py_str p)) ∧
  (∃ c h', send_message prim (S fuel) self m h = Ok (VObj c) h' ∧
     __str__ h' c = Some (py_str p)) ∧
  (∀ text, py_str p = inr text →
     rendered (evaluate prim (S (S (S fuel))) self h) = Some text ∧
     rendered (send_message prim (S fuel) self m h) = Some text).
Proof.
  intros Ho Hd Hps Hms Hg Hot Hdt Hpst Hmt Hpf Hpv.
  assert (∀ fuel' h1, extends h h1 →
    ∃ oc h2, evaluate prim (S fuel') target h1 = Ok (VObj (length (objs h1))) h2 ∧
      extends h1 h2 ∧ objs h2 !! length (objs h1) = Some oc ∧
      primitive_value oc = Some p) as Htarget.
  { intros fuel' h1 Hext. destruct (extends_lookup h h1 Hext) as (Eo & Ed & Ep & Em).
    destruct (evaluate_primitive_value prim fuel' h1 target ot dt pst p
                (Eo _ _ Hot) (Ed _ _ Hdt) (Ep _ _ Hpst) (Em _ _ Hmt) Hpf Hpv)
      as (oc & h2 & He & _ & Hext2 & Hoc & Hpvc). eauto 10. }
  assert (∀ h2 c oc, objs h2 !! c = Some oc → primitive_value oc = Some p →
            __str__ h2 c = Some (py_str p)) as Hstr.
  { intros h2 c oc Hc Hp. unfold __str__. rewrite Hc. simpl. by rewrite Hp. }
  assert (∃ c h', evaluate prim (S (S (S fuel))) self h = Ok (VObj c) h' ∧
     objs h !! c = None ∧ extends h h' ∧ __str__ h' c = Some (py_str p)) as Hev.
  { exists (S (length (objs h))).
    rewrite (evaluate_unfold prim _ h self o [m] Ho Hms).
    unfold send_message, send_message_with.
    destruct (copy_spec h self o d ps [m] Ho Hd Hps Hms)
      as (oc & h1 & Hc & Hext & Hobjs & _ & Hd1 & _).
    destruct (extends_lookup h h1 Hext) as (Eo & Ed & Ep & Em).
    assert (objs h1 !! length (objs h) = Some oc) as Hoc
      by (rewrite Hobjs; apply lookup_snoc_new).
    unfold bind; rewrite Hc.
    cbn [for_messages]; rewrite (Em _ _ Hms); cbn [lookup list_lookup].
    rewrite (bfs_lookup_direct h1 m _ oc d target Hoc Hd1 Hg).
    destruct (Htarget (S fuel) h1 Hext) as (oc2 & h2 & -> & Hext2 & Hoc2 & Hp).
    destruct (extends_lookup h1 h2 Hext2) as (_ & _ & _ & Em2).
    rewrite (Em2 _ _ (Em _ _ Hms)); cbn [lookup list_lookup].
    exists h2. rewrite Hobjs, length_app, Nat.add_1_r. split_and!; [done| | |].
    - apply lookup_ge_None. lia.
    - destruct Hext as (?&?&?&?), Hext2 as (?&?&?&?). repeat split; by etrans.
    - rewrite Hobjs, length_app, Nat.add_1_r in Hoc2. eauto. }
  assert (∃ c h', send_message prim (S fuel) self m h = Ok (VObj c) h' ∧
     __str__ h' c = Some (py_str p)) as Hsend.
  { unfold send_message, send_message_with.
    rewrite (bfs_lookup_direct h m self o d target Ho Hd Hg).
    destruct (Htarget fuel h) as (oc & h2 & -> & _ & Hoc & Hp); [repeat split; done|].
    eauto. }
  split_and!; [done..|]. intros text Htext.
  destruct Hev as (c & h' & -> & _ & _ & Hs), Hsend as (c' & h'' & -> & Hs').
  simpl. by rewrite Hs, Hs', Htext.
Qed.
End Scripts.

(** ** Lookup and reachability *)

Section Reach.
Context (h : heap) (message : string).

Lemma visit_facts a o d ps :
  objs h !! a = Some o → dicts h !! slots o = Some d →
  plists h !! parent_slots o = Some ps →
  slot_of h a message = dict_get d message ∧ parents_of h a = ps.
Proof.
  intros Ho Hd Hps. unfold slot_of, slots_of, parents_of. rewrite Ho. simpl.
  by rewrite Hd, Hps.
Qed.

Lemma bfs_loop_found fuel : ∀ queue visited target,
  bfs_loop fuel h message queue visited = Found target →
  ∃ q a, q ∈ queue ∧ ancestor h q a ∧ slot_of h a message = Some target.
Proof.
  induction fuel as [|fuel IH]; intros queue visited target; simpl; [done|].
  destruct queue as [|current queue]; [done|].
  destruct (decide (current ∈ visited)).
  { intros (q & a & Hq & Hr)%IH. exists q, a. split; [by apply list_elem_of_further|done]. }
  destruct (objs h !! current) as [o|] eqn:Ho; [|done].
  destruct (dicts h !! slots o) as [d|] eqn:Hd; [|done].
  destruct (dict_get d message) as [t|] eqn:Hg.
  { intros [= ->]. exists current, current. split_and!; [apply list_elem_of_here|done|].
    unfold slot_of, slots_of. rewrite Ho. simpl. by rewrite Hd. }
  destruct (plists h !! parent_slots o) as [ps|] eqn:Hps; [|done].
  destruct (visit_facts current o d ps Ho Hd Hps) as [_ Hpar].
  intros (q & a & Hq & Hanc & Hs)%IH.
  apply elem_of_app in Hq as [Hq|Hq].
  - exists q, a. split; [by apply list_elem_of_further|done].
  - apply list_elem_of_filter in Hq as [_ Hq].
    exists current, a. split_and!; [apply list_elem_of_here| |done].
    eapply rtc_l; [|done]. unfold parent_of. by rewrite Hpar.
Qed.

Lemma bfs_loop_not_found fuel : ∀ queue visited,
  bfs_loop fuel h message queue visited = NotFound → settled h message queue visited →
  ∃ V : gset addr, visited ⊆ V ∧ (∀ q, q ∈ queue → q ∈ V) ∧ settled h message [] V.
Proof.
  induction fuel as [|fuel IH]; intros queue visited; simpl; [done|].
  destruct queue as [|current queue].
  { intros _ Hs. exists visited. split_and!; [done| |done]. by intros q ?%elem_of_nil. }
  destruct (decide (current ∈ visited)) as [Hin|Hnin].
  { intros Hr Hs. destruct (IH queue visited Hr) as (V & HV & Hq & HVs).
    - intros v Hv. destruct (Hs v Hv) as [Hl Hp]. split; [done|].
      intros p Hpp. destruct (Hp p Hpp) as [?|[->|?]%elem_of_cons]; auto.
    - exists V. split_and!; [done| |done].
      intros q [->|?]%elem_of_cons; auto. }
  destruct (objs h !! current) as [o|] eqn:Ho; [|done].
  destruct (dicts h !! slots o) as [d|] eqn:Hd; [|done].
  destruct (dict_get d message) as [t|] eqn:Hg; [done|].
  destruct (plists h !! parent_slots o) as [ps|] eqn:Hps; [|done].
  destruct (visit_facts current o d ps Ho Hd Hps) as [Hslot Hpar].
  intros Hr Hs. destruct (IH _ _ Hr) as (V & HV & Hq & HVs).
  - intros v [->%elem_of_singleton|Hv]%elem_of_union.
    + split; [by rewrite Hslot|]. intros p Hpp. unfold parent_of in Hpp. rewrite Hpar in Hpp.
      destruct (decide (p ∈ {[current]} ∪ visited)) as [?|Hn]; [by left|right].
      apply elem_of_app. right. by apply list_elem_of_filter.
    + destruct (Hs v Hv) as [Hl Hp]. split; [done|].
      intros p Hpp. destruct (Hp p Hpp) as [?|[->|?]%elem_of_cons].
      * left. by apply elem_of_union_r.
      * left. by apply elem_of_union_l, elem_of_singleton.
      * right. apply elem_of_app. by left.
  - exists V. split_and!; [|  |done].
    + intros v Hv. by apply HV, elem_of_union_r.
    + intros q [->|?]%elem_of_cons.
      * by apply HV, elem_of_union_l, elem_of_singleton.
      * apply Hq, elem_of_app. by left.
Qed.

Lemma bfs_lookup_sound self target :
  _bfs_lookup h self message = Found target →
  ∃ a, ancestor h self a ∧ slot_of h a message = Some target.
Proof.
  intros (q & a & ->%list_elem_of_singleton & Hr)%bfs_loop_found. eauto.
Qed.

Lemma bfs_lookup_complete self a :
  _bfs_lookup h self message = NotFound → ancestor h self a →
  slot_of h a message = None.
Proof.
  intros Hl Hanc. destruct (bfs_loop_not_found _ _ _ Hl) as (V & _ & Hq & HVs).
  { by intros v ?%elem_of_empty. }
  assert (self ∈ V) as Hself by apply Hq, list_elem_of_here.
  clear Hl Hq. induction Hanc as [x|x y z Hxy _ IH].
  - by apply HVs.
  - apply IH. destruct (HVs x Hself) as [_ Hp].
    by destruct (Hp y Hxy) as [?|?%elem_of_nil].
Qed.
End Reach.

Lemma closed_lookup h self message :
  closed h = true → self < length (objs h) →
  _bfs_lookup h self message ≠ Dangling.
Proof.
  intros Hc Hs.
  rewrite (bfs_lookup_first_holder h message self (S (bfs_fuel h)) Hc Hs) by lia.
  unfold first_holder. by destruct (head _).
Qed.

(** X14.  What a lookup finds is held by the receiver or by an instance
    reached from it along declared parents, and when it finds nothing no
    such instance holds the name.  Conversely, in a store without missing
    references, when no instance reached from the receiver holds the name
    the lookup finds nothing and [send_message] raises the not-found error
    without changing anything. *)
Theorem bfs_lookup_reaches (prim : fid → addr → M value) h self message :
  (∀ target, _bfs_lookup h self message = Found target →
     ∃ a, ancestor h self a ∧ slot_of h a message = Some target) ∧
  (_bfs_lookup h self message = NotFound →
     ∀ a, ancestor h self a → slot_of h a message = None) ∧
  (closed h = true → self < length (objs h) →
     (∀ a, ancestor h self a → slot_of h a message = None) →
     _bfs_lookup h self message = NotFound ∧
     ∀ fuel, send_message prim fuel self message h = Raise (MessageNotFound message) h).
Proof.
  split_and!.
  - intros target. apply bfs_lookup_sound.
  - intros Hl a. by apply bfs_lookup_complete.
  - intros Hc Hs Hnone.
    assert (_bfs_lookup h self message = NotFound) as Hl.
    { pose proof (closed_lookup h self message Hc Hs) as Hd.
      pose proof (bfs_lookup_total h message self) as Ht.
      destruct (_bfs_lookup h self message) as [t| | |] eqn:Hl; try done.
      destruct (bfs_lookup_sound h message self t Hl) as (a & Ha & Hsl).
      rewrite (Hnone a Ha) in Hsl. done. }
    split; [done|]. intros fuel. unfold send_message, send_message_with. by rewrite Hl.
Qed.

(** X15.  [assign_slot name obj] changes lookups of [name] only: a lookup
    of any other name, from any receiver, gives after the call what it gave
    before. *)
Theorem assign_slot_lookup_frame h self name obj o d message :
  objs h !! self = Some o → dicts h !! slots o = Some d → message ≠ name →
  ∃ h', assign_slot self name obj h = Ok () h' ∧
    ∀ receiver, _bfs_lookup h' receiver message = _bfs_lookup h receiver message.
Proof.
  intros Ho Hd Hne.
  destruct (assign_slot_spec h self name obj o d Ho Hd)
    as (h' & Ha & Eo & Ep & _ & Hs & Hoth).
  exists h'. split; [done|]. intros receiver.
  assert (bfs_fuel h' = bfs_fuel h) as Hfuel.
  { unfold bfs_fuel, weight, pending, parents_of. by rewrite Eo, Ep. }
  unfold _bfs_lookup. rewrite Hfuel.
  generalize (bfs_fuel h) [receiver] (∅ : gset addr).
  induction n as [|fuel IH]; intros queue visited; simpl; [done|].
  destruct queue as [|current queue]; [done|].
  destruct (decide (current ∈ visited)); [apply IH|].
  rewrite Eo, Ep. destruct (objs h !! current) as [oc|]; [|done].
  destruct (decide (slots oc = slots o)) as [E|E].
  - rewrite E, Hs, Hd, dict_get_set_ne by done.
    destruct (dict_get d message); [done|].
    destruct (plists h !! parent_slots oc); [apply IH|done].
  - rewrite (Hoth _ E). destruct (dicts h !! slots oc) as [dc|]; [|done].
    destruct (dict_get dc message); [done|].
    destruct (plists h !! parent_slots oc); [apply IH|done].
Qed.

(** X16.  Nothing bounds the recursion of [evaluate] and [send_message].
    An instance whose first message names a slot of its own that holds the
    instance itself is never evaluated to the end: at every depth allowed,
    [evaluate] and the send of that message are still recursing. *)
Theorem self_evaluation_never_returns (prim : fid → addr → M value) h a o d ps m ms :
  objs h !! a = Some o → dicts h !! slots o = Some d →
  plists h !! parent_slots o = Some ps → mlists h !! messages o = Some (m :: ms) →
  dict_get d m = Some a →
  ∀ fuel, evaluate prim fuel a h = OutOfFuel ∧
          send_message prim fuel a m h = OutOfFuel.
Proof.
  intros Ho Hd Hps Hms Hg fuel.
  pose proof (evaluate_self_loop prim h a o d ps m ms Ho Hd Hps Hms Hg) as Hev.
  split; [apply Hev, extends_refl|].
  unfold send_message, send_message_with.
  rewrite (bfs_lookup_direct h m a o d a Ho Hd Hg). apply Hev, extends_refl.
Qed.

(** ** Copies resolve names as their originals *)

Section Irrelevant.
Context (h : heap) (message : string).

Lemma filter_not_in_ext (x : addr) (V : gset addr) (ps : list addr) :
  x ∉ ps → filter (λ p, p ∉ {[x]} ∪ V) ps = filter (λ p, p ∉ V) ps.
Proof.
  induction ps as [|p ps IH]; intros Hx; [done|].
  apply not_elem_of_cons in Hx as [Hne Hx]. rewrite !filter_cons, IH by done.
  destruct (decide (p ∉ V)) as [Hp|Hp].
  - rewrite decide_True; [done|].
    intros [?%elem_of_singleton|?]%elem_of_union; done.
  - rewrite decide_False; [done|]. intros Hn. apply Hp. intros Hin.
    apply Hn. by apply elem_of_union_r.
Qed.

Lemma filter_not_in_none (V : gset addr) (ps : list addr) :
  (∀ p, p ∈ ps → p ∉ V) → filter (λ p, p ∉ V) ps = ps.
Proof.
  induction ps as [|p ps IH]; intros Hps; [done|]. rewrite filter_cons, IH.
  - rewrite decide_True; [done|]. apply Hps, list_elem_of_here.
  - intros q Hq. by apply Hps, list_elem_of_further.
Qed.

Lemma bfs_loop_unreachable_visited x fuel : ∀ queue visited,
  (∀ e, e ∈ queue → ¬ ancestor h e x) →
  bfs_loop fuel h message queue ({[x]} ∪ visited)
    = bfs_loop fuel h message queue visited.
Proof.
  induction fuel as [|fuel IH]; intros queue visited Hq; simpl; [done|].
  destruct queue as [|a queue]; [done|].
  assert (a ≠ x) as Hax by (intros ->; by apply (Hq x); [apply list_elem_of_here|]).
  assert (∀ e, e ∈ queue → ¬ ancestor h e x) as Hq'
    by (intros e He; by apply Hq, list_elem_of_further).
  destruct (decide (a ∈ visited)) as [Hin|Hnin].
  { rewrite decide_True by (by apply elem_of_union_r). by apply IH. }
  rewrite decide_False
    by (intros [?%elem_of_singleton|?]%elem_of_union; done).
  destruct (objs h !! a) as [o|] eqn:Ho; [|done].
  destruct (dicts h !! slots o) as [d|] eqn:Hd; [|done].
  destruct (dict_get d message); [done|].
  destruct (plists h !! parent_slots o) as [ps|] eqn:Hps; [|done].
  destruct (visit_facts h message a o d ps Ho Hd Hps) as [_ Hpar].
  assert (∀ p, p ∈ ps → ¬ ancestor h p x) as Hps'.
  { intros p Hp Hanc. apply (Hq a); [apply list_elem_of_here|].
    eapply rtc_l; [|done]. unfold parent_of. by rewrite Hpar. }
  assert (x ∉ ps) as Hx by (intros Hin; by apply (Hps' x)).
  rewrite (assoc_L (∪)), (comm_L (∪) {[a]} {[x]}), <- (assoc_L (∪)).
  rewrite filter_not_in_ext by done. apply IH.
  intros e [He|He]%elem_of_app; [by apply Hq'|].
  apply list_elem_of_filter in He as [_ He]. by apply Hps'.
Qed.

Lemma closed_no_dangling fuel : closed h = true → ∀ queue visited,
  Forall (λ a, a < length (objs h)) queue →
  bfs_loop fuel h message queue visited ≠ Dangling.
Proof.
  intros Hc. induction fuel as [|fuel IH]; intros queue visited Hq; simpl; [done|].
  destruct queue as [|a queue]; [done|].
  apply Forall_cons in Hq as [Ha Hq].
  destruct (decide (a ∈ visited)); [by apply IH|].
  destruct (lookup_lt_is_Some_2 _ _ Ha) as [o Ho].
  destruct (closed_spec h a o Hc Ho) as (d & ps & Hd & Hps & Hall).
  rewrite Ho, Hd, Hps. destruct (dict_get d message); [done|].
  apply IH. apply Forall_app. split; [done|].
  apply Forall_forall. intros p [_ Hp]%list_elem_of_filter.
  by apply (proj1 (Forall_forall _ _) Hall).
Qed.
End Irrelevant.

Lemma closed_ancestors_old h h' e y :
  closed h = true → extends h h' → e < length (objs h) →
  ancestor h' e y → y < length (objs h).
Proof.
  intros Hc Hext He Hanc. destruct (extends_lookup h h' Hext) as (Eo & _ & Ep & _).
  induction Hanc as [x|x y z Hxy _ IH]; [done|]. apply IH.
  destruct (lookup_lt_is_Some_2 _ _ He) as [o Ho].
  destruct (closed_spec h x o Hc Ho) as (d & ps & Hd & Hps & Hall).
  unfold parent_of, parents_of in Hxy. rewrite (Eo _ _ Ho), (Ep _ _ Hps) in Hxy.
  simpl in Hxy. by eapply (proj1 (Forall_forall _ _) Hall).
Qed.

Lemma copy_lookup_alike h self o d ps ms message :
  closed h = true →
  objs h !! self = Some o → dicts h !! slots o = Some d →
  plists h !! parent_slots o = Some ps → mlists h !! messages o = Some ms →
  (∀ p, p ∈ ps → ¬ ancestor h p self) →
  ∃ c h', copy self h = Ok c h' ∧
    _bfs_lookup h' c message = _bfs_lookup h self message.
Proof.
  intros Hc Ho Hd Hps Hms Hacyc.
  destruct (copy_spec h self o d ps ms Ho Hd Hps Hms)
    as (oc & h' & Hcopy & Hext & Hobjs & _ & Hd1 & _ & Hp1 & _).
  assert (objs h' !! length (objs h) = Some oc) as Hoc
    by (rewrite Hobjs; apply lookup_snoc_new).
  exists (length (objs h)), h'. split; [done|].
  destruct (dict_get d message) as [t|] eqn:Hg.
  { rewrite (bfs_lookup_direct h message self o d t Ho Hd Hg).
    by apply (bfs_lookup_direct h' message _ oc d t). }
  destruct (closed_spec h self o Hc Ho) as (d0 & ps0 & Hd0 & Hps0 & Hall).
  assert (ps0 = ps) as -> by congruence. assert (d0 = d) as -> by congruence.
  set (F := S (length ps + weight h ∅)).
  set (r := bfs_loop F h message ps ∅).
  assert (r ≠ Exhausted) as Hne by (apply bfs_loop_total; unfold F; lia).
  assert (r ≠ Dangling) as Hnd by by apply closed_no_dangling.
  assert (self ∉ ps) as Hself by (intros Hin; by apply (Hacyc self)).
  assert (length (objs h) ∉ ps) as Hfresh.
  { intros Hin. apply (proj1 (Forall_forall _ _) Hall) in Hin. lia. }
  transitivity r; [|symmetry].
  - apply (bfs_lookup_intro h' message (S F)); [|done].
    erewrite bfs_loop_pass; [|apply not_elem_of_empty|done..].
    rewrite app_nil_l, filter_not_in_ext by done.
    rewrite bfs_loop_unreachable_visited.
    + rewrite filter_not_in_none by (intros; apply not_elem_of_empty).
      by apply bfs_loop_extends.
    + intros e [_ He]%list_elem_of_filter Hanc.
      apply (proj1 (Forall_forall _ _) Hall) in He.
      pose proof (closed_ancestors_old h h' e _ Hc Hext He Hanc). lia.
  - apply (bfs_lookup_intro h message (S F)); [|done].
    erewrite bfs_loop_pass; [|apply not_elem_of_empty|done..].
    rewrite app_nil_l, filter_not_in_ext by done.
    rewrite bfs_loop_unreachable_visited.
    + by rewrite filter_not_in_none by (intros; apply not_elem_of_empty).
    + intros e [_ He]%list_elem_of_filter. by apply Hacyc.
Qed.

(** X17.  In a store without missing references, a copy of an instance
    that is not among its own ancestors resolves every name as the instance
    does; so sending a message to the copy and sending it to the instance
    are the same computation. *)
Theorem copy_resolves_alike (prim : fid → addr → M value) h self o d ps ms message :
  closed h = true →
  objs h !! self = Some o → dicts h !! slots o = Some d →
  plists h !! parent_slots o = Some ps → mlists h !! messages o = Some ms →
  (∀ p, p ∈ ps → ¬ ancestor h p self) →
  ∃ c h', copy self h = Ok c h' ∧
    _bfs_lookup h' c message = _bfs_lookup h self message ∧
    ∀ fuel, send_message prim fuel c message h'
              = send_message prim fuel self message h'.
Proof.
  intros Hc Ho Hd Hps Hms Hacyc.
  destruct (copy_lookup_alike h self o d ps ms message Hc Ho Hd Hps Hms Hacyc)
    as (c & h' & Hcopy & Hl).
  exists c, h'. split_and!; [done..|]. intros fuel.
  destruct (copy_inv self h) as [(h1 & Hcopy' & Hext)|Hs]; [|congruence].
  assert (h1 = h') as -> by congruence.
  unfold send_message, send_message_with. rewrite Hl.
  rewrite (bfs_lookup_intro h' message (bfs_fuel h) self (_bfs_lookup h self message));
    [done| |apply bfs_lookup_total].
  apply bfs_loop_extends; [done|].
  apply closed_lookup; [done|by eapply lookup_lt_Some].
Qed.

(** X18.  Evaluating an instance that has a payload and neither messages
    nor a callable returns a new instance every time: two evaluations in a
    row return two instances, different from each other and from the
    receiver, and on all three [str] gives what [str] of the payload
    gives, its text or its error. *)
Theorem evaluate_payload_never_same (prim : fid → addr → M value) fuel h self o d ps p :
  objs h !! self = Some o → dicts h !! slots o = Some d →
  plists h !! parent_slots o = Some ps → mlists h !! messages o = Some [] →
  primitive_function o = None → primitive_value o = Some p →
  ∃ c1 c2 h1 h2,
    evaluate prim (S fuel) self h = Ok (VObj c1) h1 ∧
    evaluate prim (S fuel) self h1 = Ok (VObj c2) h2 ∧
    c1 ≠ self ∧ c2 ≠ self ∧ c1 ≠ c2 ∧
    __str__ h2 c1 = Some (py_str p) ∧ __str__ h2 c2 = Some (py_str p) ∧
    __str__ h2 self = Some (py_str p).
Proof.
  intros Ho Hd Hps Hms Hpf Hpv.
  destruct (evaluate_primitive_value prim fuel h self o d ps p Ho Hd Hps Hms Hpf Hpv)
    as (oc1 & h1 & He1 & _ & Hext1 & Hoc1 & Hp1).
  destruct (extends_lookup h h1 Hext1) as (Eo & Ed & Ep & Em).
  destruct (evaluate_primitive_value prim fuel h1 self o d ps p
              (Eo _ _ Ho) (Ed _ _ Hd) (Ep _ _ Hps) (Em _ _ Hms) Hpf Hpv)
    as (oc2 & h2 & He2 & _ & Hext2 & Hoc2 & Hp2).
  destruct (extends_lookup h1 h2 Hext2) as (Eo2 & _).
  exists (length (objs h)), (length (objs h1)), h1, h2.
  apply lookup_lt_Some in Ho as Hlt. apply lookup_lt_Some in Hoc1 as Hlt1.
  unfold __str__. rewrite (Eo2 _ _ Hoc1), Hoc2, (Eo2 _ _ (Eo _ _ Ho)). simpl.
  rewrite Hp1, Hp2, Hpv. split_and!; try done; lia.
Qed.

(** X19.  An instance with one message delegates to what the message
    names.  In a store without missing references, for an instance that is
    not among its own ancestors and hosts that do not edit message lists,
    its evaluation is, after the copy, the evaluation of what a lookup of
    the message from the instance itself finds; and when the lookup finds
    nothing it raises the not-found error.  The lookup has no other
    outcome. *)
Theorem script_delegates (prim : fid → addr → M value) fuel h self o d ps m :
  closed h = true →
  objs h !! self = Some o → dicts h !! slots o = Some d →
  plists h !! parent_slots o = Some ps → mlists h !! messages o = Some [m] →
  (∀ p, p ∈ ps → ¬ ancestor h p self) →
  keeps_messages prim →
  ∃ c h1, copy self h = Ok c h1 ∧
    match _bfs_lookup h self m with
    | Found target =>
        evaluate prim (S (S (S fuel))) self h = evaluate prim (S (S fuel)) target h1
    | NotFound =>
        evaluate prim (S (S (S fuel))) self h = Raise (MessageNotFound m) h1
    | _ => False
    end.
Proof.
  intros Hc Ho Hd Hps Hms Hacyc Hprim.
  destruct (copy_lookup_alike h self o d ps [m] m Hc Ho Hd Hps Hms Hacyc)
    as (c & h1 & Hcopy & Hl).
  exists c, h1. split; [done|].
  pose proof (bfs_lookup_total h m self) as Ht.
  pose proof (closed_lookup h self m Hc (lookup_lt_Some _ _ _ Ho)) as Hnd.
  rewrite (evaluate_unfold prim _ h self o [m] Ho Hms). unfold bind. rewrite Hcopy.
  destruct (copy_inv self h) as [(h1' & Hcopy' & Hext)|Hs]; [|congruence].
  assert (h1' = h1) as -> by congruence.
  destruct (extends_lookup h h1 Hext) as (_ & _ & _ & Em).
  cbn [for_messages]. rewrite (Em _ _ Hms). cbn [lookup list_lookup].
  unfold send_message, send_message_with. rewrite Hl.
  destruct (_bfs_lookup h self m) as [target| | |]; try done.
  destruct (evaluate prim (S (S fuel)) target h1) as [v h2| | |] eqn:He; try done.
  apply evaluate_keeps_messages in He; [|done].
  by rewrite (prefix_lookup_Some _ _ _ _ (Em _ _ Hms) He).
Qed.

(** ** Instances of the further properties *)

Lemma echo_host_only_allocates : only_allocates echo_host.
Proof.
  intros f a h. unfold echo_host, echo.
  repeat case_match; simpl; try done; apply extends_refl.
Qed.

Lemma script_heap_acyclic p : p ∈ [1] → ¬ ancestor script_heap p 0.
Proof.
  intros ->%list_elem_of_singleton Hanc.
  inversion Hanc as [|x y z Hxy _]; subst. by apply elem_of_nil in Hxy.
Qed.

Lemma mutual_heap_ancestors a : ancestor mutual_heap 0 a → a = 0 ∨ a = 1.
Proof.
  assert (∀ x, x = 0 ∨ x = 1 → ancestor mutual_heap x a → a = 0 ∨ a = 1) as H;
    [|by apply H; left].
  intros x Hx Hanc. induction Hanc as [x|x y z Hxy _ IH]; [done|]. apply IH.
  destruct Hx as [-> | ->].
  - apply list_elem_of_singleton in Hxy. by right.
  - apply list_elem_of_singleton in Hxy. by left.
Qed.

Lemma assign_slot_round_trip_witness :
  ∃ h', assign_slot 0 "n" 3 shadow_heap = Ok () h' ∧
    slot_of h' 0 "n" = Some 3 ∧ _bfs_lookup h' 0 "n" = Found 3 ∧
    slot_of h' 0 "k" = Some 2 ∧ slots_of h' 1 = Some [("k", 3)].
Proof.
  destruct (assign_slot_round_trip shadow_heap 0 "n" 3 _ _ eq_refl eq_refl)
    as (h' & Ha & Hs & Hl & Hoth & _ & _ & _ & Hother & _).
  exists h'. split_and!; try done.
  - by rewrite Hoth.
  - by rewrite (Hother 1 _ eq_refl).
Defined.

Lemma assign_slot_overwrites_witness :
  ∃ h1 h2, assign_slot 0 "k" 3 shadow_heap = Ok () h1 ∧
    assign_slot 0 "k" 1 h1 = Ok () h2 ∧
    slot_of h2 0 "k" = Some 1 ∧ keys_of h2 0 = Some ["k"].
Proof.
  destruct (assign_slot_overwrites shadow_heap 0 "k" 3 1 _ _ eq_refl eq_refl)
    as (h1 & h2 & Ha1 & Ha2 & Hs & Hk2 & Hk1).
  exists h1, h2. split_and!; try done. by rewrite Hk2, Hk1.
Defined.

Lemma assign_slot_lookup_frame_witness :
  ∃ h', assign_slot 0 "n" 5 tie_break_heap = Ok () h' ∧
    _bfs_lookup h' 0 "k" = Found 4.
Proof.
  destruct (assign_slot_lookup_frame tie_break_heap 0 "n" 5 _ _ "k" eq_refl eq_refl)
    as (h' & Ha & Hl); [done|].
  exists h'. split; [done|]. rewrite Hl. by vm_compute.
Defined.

Lemma assign_parent_slot_spec_witness :
  ∃ h', assign_parent_slot 2 "parent" 1 shadow_heap = Ok () h' ∧
    slot_of h' 2 "parent" = Some 1 ∧ parent_slots_of h' 2 = Some [1].
Proof.
  destruct (assign_parent_slot_spec shadow_heap 2 "parent" 1 _ _ _
              eq_refl eq_refl eq_refl) as (h' & Ha & Hs & Hp & _).
  by exists h'.
Defined.

Lemma assign_parent_slot_inherits_witness :
  ∃ h', assign_parent_slot 2 "parent" 1 shadow_heap = Ok () h' ∧
    _bfs_lookup h' 2 "k" = Found 3.
Proof.
  destruct (assign_parent_slot_inherits echo_host shadow_heap 2 "parent" 1
              _ _ _ _ "k" 3 0 eq_refl eq_refl eq_refl eq_refl eq_refl)
    as (h' & Ha & Hl & _); [done..|].
  by exists h'.
Defined.

Lemma make_parent_twice_witness :
  ∃ h1 h2, make_parent 0 "k" shadow_heap = Ok () h1 ∧
    make_parent 0 "k" h1 = Ok () h2 ∧ parent_slots_of h2 0 = Some [1; 2; 2].
Proof.
  destruct (make_parent_twice shadow_heap 0 "k" _ _ _ 2 eq_refl eq_refl eq_refl eq_refl)
    as (h1 & h2 & H1 & H2 & _ & Hp & _).
  by exists h1, h2.
Defined.

Lemma make_parent_keeps_promoted_witness :
  ∃ h1 h2, make_parent 0 "k" shadow_heap = Ok () h1 ∧
    assign_slot 0 "k" 3 h1 = Ok () h2 ∧
    slot_of h2 0 "k" = Some 3 ∧ parent_slots_of h2 0 = Some [1; 2].
Proof.
  destruct (make_parent_keeps_promoted shadow_heap 0 "k" 3 _ _ _ 2
              eq_refl eq_refl eq_refl eq_refl) as (h1 & h2 & H1 & H2 & Hs & Hp).
  by exists h1, h2.
Defined.

Lemma copy_parent_lists_independent_witness :
  ∃ c h', copy 0 shadow_heap = Ok c h' ∧ parent_slots_of h' c = Some [1] ∧
    ∃ h1, make_parent c "k" h' = Ok () h1 ∧
      parent_slots_of h1 c = Some [1; 2] ∧ parent_slots_of h1 0 = Some [1].
Proof.
  destruct (copy_parent_lists_independent shadow_heap 0 "k" _ _ _ _ 2
              eq_refl eq_refl eq_refl eq_refl eq_refl)
    as (c & h' & Hc & Hp & Hm & _).
  by exists c, h'.
Defined.

Lemma init_shares_passed_slots_witness :
  ∃ a b h1 h2,
    __init__ (Some 1) None None None None passed_heap = Ok a h1 ∧
    __init__ (Some 1) None None None None h1 = Ok b h2 ∧ a ≠ b ∧
    ∃ h3, assign_slot a "n" 0 h2 = Ok () h3 ∧ slot_of h3 b "n" = Some 0.
Proof.
  destruct (init_shares_passed_slots passed_heap 1 _ None None None None "n" 0 eq_refl)
    as (a & b & h1 & h2 & H1 & H2 & Hne & _ & _ & h3 & Ha & _ & Hb); [done|].
  exists a, b, h1, h2. split_and!; try done. by exists h3.
Defined.

Lemma copy_renders_alike_witness :
  ∃ c h', copy 0 falsy_heap = Ok c h' ∧ print h' c = Some (inr "0").
Proof.
  destruct (copy_renders_alike falsy_heap 0 _ _ _ _ eq_refl eq_refl eq_refl eq_refl)
    as (c & h' & Hc & Hs & _).
  exists c, h'. split; [done|]. rewrite Hs. vm_compute. reflexivity.
Defined.

Lemma evaluate_script_renders_payload_witness :
  rendered (evaluate echo_host 3 0 precedence_heap) = Some "7" ∧
  rendered (send_message echo_host 1 0 "x" precedence_heap) = Some "7".
Proof.
  destruct (evaluate_script_renders_payload echo_host 0 precedence_heap 0 _ _ _ "x" 1
              _ _ _ (PInt 7) eq_refl eq_refl eq_refl eq_refl eq_refl eq_refl eq_refl
              eq_refl eq_refl eq_refl eq_refl) as (_ & _ & Hr).
  apply (Hr "7"). vm_compute. reflexivity.
Defined.

Lemma bfs_lookup_extends_witness :
  ∃ c h', copy 1 shadow_heap = Ok c h' ∧ _bfs_lookup h' 0 "k" = Found 2.
Proof.
  destruct (copy_spec shadow_heap 1 _ _ _ _ eq_refl eq_refl eq_refl eq_refl)
    as (oc & h' & Hc & Hext & _).
  exists 4, h'. split; [done|].
  by rewrite (bfs_lookup_extends shadow_heap h' 0 "k" Hext) by (by vm_compute).
Defined.

Lemma engine_only_allocates_witness :
  allocated echo_heap (evaluate echo_host 3 0 echo_heap) ∧
  allocated echo_heap (send_message echo_host 3 0 "echo" echo_heap) ∧
  allocated echo_heap (send_message_with_parameters echo_host 3 0 "echo" 2 echo_heap).
Proof.
  apply (engine_only_allocates echo_host echo_host_only_allocates 3 0 "echo" 2 echo_heap).
Defined.

Lemma bfs_lookup_reaches_witness :
  (∃ a, ancestor tie_break_heap 0 a ∧ slot_of tie_break_heap a "k" = Some 4) ∧
  slot_of shadow_heap 1 "n" = None ∧
  _bfs_lookup mutual_heap 0 "k" = NotFound ∧
  send_message echo_host 2 0 "k" mutual_heap = Raise (MessageNotFound "k") mutual_heap.
Proof.
  split_and!.
  - apply (bfs_lookup_reaches echo_host tie_break_heap 0 "k"). by vm_compute.
  - destruct (bfs_lookup_reaches echo_host shadow_heap 0 "n") as (_ & Hn & _).
    apply Hn; [by vm_compute|]. eapply rtc_l; [|apply rtc_refl].
    apply list_elem_of_here.
  - destruct (bfs_lookup_reaches echo_host mutual_heap 0 "k") as (_ & _ & Hc).
    apply Hc; [reflexivity|simpl; lia|].
    by intros a [-> | ->]%mutual_heap_ancestors.
  - destruct (bfs_lookup_reaches echo_host mutual_heap 0 "k") as (_ & _ & Hc).
    apply Hc; [reflexivity|simpl; lia|].
    by intros a [-> | ->]%mutual_heap_ancestors.
Defined.

Lemma self_evaluation_never_returns_witness :
  evaluate echo_host 40 0 self_loop_heap = OutOfFuel ∧
  send_message echo_host 40 0 "x" self_loop_heap = OutOfFuel.
Proof.
  apply (self_evaluation_never_returns echo_host self_loop_heap 0 _ _ _ "x" []
           eq_refl eq_refl eq_refl eq_refl eq_refl 40).
Defined.

Lemma copy_resolves_alike_witness :
  ∃ c h', copy 0 script_heap = Ok c h' ∧ _bfs_lookup h' c "k" = Found 2 ∧
    send_message echo_host 2 c "k" h' = send_message echo_host 2 0 "k" h'.
Proof.
  destruct (copy_resolves_alike echo_host script_heap 0 _ _ _ _ "k" eq_refl
              eq_refl eq_refl eq_refl eq_refl script_heap_acyclic)
    as (c & h' & Hc & Hl & Hs).
  exists c, h'. split_and!; [done| |apply Hs]. rewrite Hl. by vm_compute.
Defined.

Lemma evaluate_payload_never_same_witness :
  ∃ c1 c2 h1 h2,
    evaluate echo_host 1 0 falsy_heap = Ok (VObj c1) h1 ∧
    evaluate echo_host 1 0 h1 = Ok (VObj c2) h2 ∧
    c1 ≠ 0 ∧ c2 ≠ 0 ∧ c1 ≠ c2 ∧
    __str__ h2 c1 = Some (inr "0") ∧ __str__ h2 c2 = Some (inr "0").
Proof.
  destruct (evaluate_payload_never_same echo_host 0 falsy_heap 0 _ _ _ (PInt 0)
              eq_refl eq_refl eq_refl eq_refl eq_refl eq_refl)
    as (c1 & c2 & h1 & h2 & H1 & H2 & Hn1 & Hn2 & Hn & Hs1 & Hs2 & _).
  by exists c1, c2, h1, h2.
Defined.

Lemma script_delegates_witness :
  ∃ c h1, copy 0 script_heap = Ok c h1 ∧
    evaluate echo_host 3 0 script_heap = evaluate echo_host 2 2 h1.
Proof.
  destruct (script_delegates echo_host 0 script_heap 0 _ _ _ "k" eq_refl
              eq_refl eq_refl eq_refl eq_refl script_heap_acyclic
              echo_host_keeps_messages) as (c & h1 & Hc & Hm).
  assert (_bfs_lookup script_heap 0 "k" = Found 2) as E by (by vm_compute).
  rewrite E in Hm. by exists c, h1.
Defined.

End SelfObjectModel.
